(** * spkf: the sigma-point core [SigmaBase] of src/spkf/sigma_base.h

    A shallow embedding of the class template [SigmaBase<Derived>]: its
    storage, its aliased block views, its constructor, the sigma-point
    generator and the six step operations, followed by the properties of
    the specification that concern them. *)

From Stdlib Require Import Arith Bool Lia ZArith Ring Floats.

Set Implicit Arguments.

(** ** Scalars

    [scalar_t] is a template parameter of the class (traits<Derived>::scalar_t).
    The core uses [+], [-], [*], [sqrt] and the constant zero on it; one and
    the opposite are there to state the condition on the weights and the
    ring laws.  No law is assumed of the operations unless a section states
    one. *)

Record scalar_ops : Type := ScalarOps {
  scalar_t :> Type;
  s_zero : scalar_t;
  s_one  : scalar_t;
  s_add  : scalar_t -> scalar_t -> scalar_t;
  s_mul  : scalar_t -> scalar_t -> scalar_t;
  s_sub  : scalar_t -> scalar_t -> scalar_t;
  s_opp  : scalar_t -> scalar_t;
  s_sqrt : scalar_t -> scalar_t
}.

(** Eigen's [ComputationInfo], as far as [LLT] reports it. *)
Inductive ComputationInfo : Set := Success | NumericalIssue.

(** A counted loop: [body] is run for [i], [i+1], ..., [i+n-1]. *)
Fixpoint for_loop {S : Type} (i n : nat) (body : nat -> S -> S) (s : S) : S :=
  match n with
  | 0 => s
  | Datatypes.S n' => for_loop (Datatypes.S i) n' body (body i s)
  end.

(** The flag an operation returns, out of its (flag, output, object) result. *)
Definition returned {A B : Type} (res : bool * A * B) : bool := fst (fst res).
Definition output {A B : Type} (res : bool * A * B) : A := snd (fst res).
Definition object {A B : Type} (res : bool * A * B) : B := snd res.

Declare Scope scalar_scope.
Delimit Scope scalar_scope with sc.

Section Core.

Variable K : scalar_ops.

Local Notation "x + y" := (s_add K x y) : scalar_scope.
Local Notation "x - y" := (s_sub K x y) : scalar_scope.
Local Notation "x * y" := (s_mul K x y) : scalar_scope.
Local Notation "0" := (s_zero K) : scalar_scope.
Local Notation "1" := (s_one K) : scalar_scope.

(** ** Dense fixed-size vectors and matrices

    An Eigen [Matrix<scalar_t, R, C>] is a fixed array of coefficients with
    its dimensions in the type.  A matrix is modelled by its coefficient
    function (row, then column), a vector by its coefficient function; the
    dimensions are those of the source's types, and every write below
    touches the coefficients of its target's extent only. *)

Definition vector := nat -> K.
Definition matrix := nat -> nat -> K.

(** [M.col(j)] *)
Definition col (j : nat) (M : matrix) : vector := fun i => M i j.

(** [M.block(r0, c0, _, _)] read as a view: coefficient (i, j) of the view
    is coefficient (r0 + i, c0 + j) of [M]. *)
Definition block (r0 c0 : nat) (M : matrix) : matrix :=
  fun i j => M (r0 + i)%nat (c0 + j)%nat.

(** [M.block(r0, c0, nr, nc) = B]: a write through the view. *)
Definition assign_block (r0 c0 nr nc : nat) (B M : matrix) : matrix :=
  fun i j =>
    if (r0 <=? i) && (i <? r0 + nr) && (c0 <=? j) && (j <? c0 + nc)
    then B (i - r0)%nat (j - c0)%nat
    else M i j.

(** [a.block<n,1>(off, 0) = v] on a column vector. *)
Definition assign_segment (off n : nat) (v a : vector) : vector :=
  fun i => if (off <=? i) && (i <? off + n) then v (i - off)%nat else a i.

(** [M.block(r0, 0, nr, _).col(j) = v]: column [j] of a row-range view. *)
Definition assign_col (r0 nr j : nat) (v : vector) (M : matrix) : matrix :=
  fun i k =>
    if (k =? j) && (r0 <=? i) && (i <? r0 + nr) then v (i - r0)%nat else M i k.

(** Coefficient-wise vector expressions. *)
Definition vadd (u v : vector) : vector := fun i => (u i + v i)%sc.
Definition vsub (u v : vector) : vector := fun i => (u i - v i)%sc.
Definition vscale (c : K) (v : vector) : vector := fun i => (c * v i)%sc.

(** [A.triangularView<Lower>()] evaluated to a dense matrix: the strictly
    upper part reads as zero. *)
Definition triangularView_Lower (A : matrix) : matrix :=
  fun i j => if j <=? i then A i j else 0%sc.

(** ** Eigen's LLT

    [LLT<MatrixType>] belongs to Eigen, not to this repository.  The core
    uses its constructor (which runs [compute]) and [matrixL()]; it never
    calls [info()].  A decomposition object holds the matrix [compute] left
    behind and the status it recorded. *)

Record LLT : Type := MkLLT {
  m_matrix : matrix;
  m_info   : ComputationInfo
}.

(** [llt.matrixL()]: the lower triangular view of the stored matrix. *)
Definition matrixL (llt : LLT) : matrix := triangularView_Lower (m_matrix llt).

(** The constructor [LLT<Matrix<scalar_t,n,n>>(A)], a parameter of the model. *)
Variable LLT_compute : nat -> matrix -> LLT.

(** ** Compile-time dimensions (traits<Derived>)

    [nu], the dimension of the control vector, types [control_t] and nothing
    else; no operation of the core depends on it. *)

Variables nx nz : nat.

Definition L : nat := nx + nx + nz.   (* augmented state vector dimension *)
Definition r : nat := 2 * L + 1.      (* no. of sigma points *)

(** ** KFBase *)

(** Modelled from the spec: the base class [KFBase] (kf_base.h, which is not
    among the sources).  The core reads its accessors [state()], [covar()],
    [proc_noise()] and [obs_noise()]; the specification has the constructor
    take the initial state and the three covariance matrices, and gives both
    noise channels zero mean. *)
Record KFBase : Type := MkKFBase {
  state      : vector;
  covar      : matrix;
  proc_covar : matrix;
  obs_covar  : matrix;
  proc_noise : vector;
  obs_noise  : vector
}.

Definition zero_vector : vector := fun _ => 0%sc.

(** Modelled from the spec: the constructor of [KFBase] (kf_base.h is
    missing); the noise means are zero. *)
Definition KFBase_ctor (state0 : vector) (covar0 proc_covar0 obs_covar0 : matrix)
  : KFBase :=
  {| state := state0; covar := covar0;
     proc_covar := proc_covar0; obs_covar := obs_covar0;
     proc_noise := zero_vector; obs_noise := zero_vector |}.

(** ** The object

    The data members of [SigmaBase] that own storage.  The [Ref] members
    own nothing: they are the views defined after the record. *)

Record SigmaBase : Type := MkSigmaBase {
  base         : KFBase;
  _aug_vector  : vector;      (* aug_vector_t,  L     *)
  _aug_matrix  : matrix;      (* aug_matrix_t,  L x L *)
  _aug_sigmas  : matrix;      (* aug_sigmas_t,  L x r *)
  _obs_sigmas  : matrix;      (* obs_sigmas_t,  nz x r *)
  _cross_covar : matrix       (* cross_covar_t, nx x nz *)
}.

Definition set_aug_vector (v : vector) (s : SigmaBase) : SigmaBase :=
  {| base := base s; _aug_vector := v; _aug_matrix := _aug_matrix s;
     _aug_sigmas := _aug_sigmas s; _obs_sigmas := _obs_sigmas s;
     _cross_covar := _cross_covar s |}.

Definition set_aug_matrix (M : matrix) (s : SigmaBase) : SigmaBase :=
  {| base := base s; _aug_vector := _aug_vector s; _aug_matrix := M;
     _aug_sigmas := _aug_sigmas s; _obs_sigmas := _obs_sigmas s;
     _cross_covar := _cross_covar s |}.

Definition set_aug_sigmas (M : matrix) (s : SigmaBase) : SigmaBase :=
  {| base := base s; _aug_vector := _aug_vector s; _aug_matrix := _aug_matrix s;
     _aug_sigmas := M; _obs_sigmas := _obs_sigmas s;
     _cross_covar := _cross_covar s |}.

Definition set_obs_sigmas (M : matrix) (s : SigmaBase) : SigmaBase :=
  {| base := base s; _aug_vector := _aug_vector s; _aug_matrix := _aug_matrix s;
     _aug_sigmas := _aug_sigmas s; _obs_sigmas := M;
     _cross_covar := _cross_covar s |}.

Definition set_cross_covar (M : matrix) (s : SigmaBase) : SigmaBase :=
  {| base := base s; _aug_vector := _aug_vector s; _aug_matrix := _aug_matrix s;
     _aug_sigmas := _aug_sigmas s; _obs_sigmas := _obs_sigmas s;
     _cross_covar := M |}.

(** The [Ref] members, read: views into [_aug_sigmas] and [_aug_matrix]. *)
Definition _state_sigmas (s : SigmaBase) : matrix := block 0 0 (_aug_sigmas s).
Definition _proc_noise_sigmas (s : SigmaBase) : matrix := block nx 0 (_aug_sigmas s).
Definition _obs_noise_sigmas (s : SigmaBase) : matrix := block (2 * nx) 0 (_aug_sigmas s).
Definition _chol_covar (s : SigmaBase) : matrix := block 0 0 (_aug_matrix s).
Definition _chol_proc_covar (s : SigmaBase) : matrix := block nx nx (_aug_matrix s).
Definition _chol_obs_covar (s : SigmaBase) : matrix :=
  block (2 * nx) (2 * nx) (_aug_matrix s).

(** The [Ref] members, written: the write lands in the owning matrix. *)
Definition assign_chol_covar (B : matrix) (s : SigmaBase) : SigmaBase :=
  set_aug_matrix (assign_block 0 0 nx nx B (_aug_matrix s)) s.
Definition assign_chol_proc_covar (B : matrix) (s : SigmaBase) : SigmaBase :=
  set_aug_matrix (assign_block nx nx nx nx B (_aug_matrix s)) s.
Definition assign_chol_obs_covar (B : matrix) (s : SigmaBase) : SigmaBase :=
  set_aug_matrix (assign_block (2 * nx) (2 * nx) nz nz B (_aug_matrix s)) s.

(** ** Constructor (sigma_base.h, lines 69-83)

    [mem] is the storage of the object as the constructor body finds it:
    the base is built by [KFBase]'s constructor, and the matrix members are
    default-constructed, which for Eigen's fixed-size matrices writes no
    coefficient. *)
Definition SigmaBase_ctor (mem : SigmaBase)
    (state0 : vector) (covar0 proc_covar0 obs_covar0 : matrix) : SigmaBase :=
  let s0 :=
    {| base := KFBase_ctor state0 covar0 proc_covar0 obs_covar0;
       _aug_vector := _aug_vector mem; _aug_matrix := _aug_matrix mem;
       _aug_sigmas := _aug_sigmas mem; _obs_sigmas := _obs_sigmas mem;
       _cross_covar := _cross_covar mem |} in
  (* Cholesky decomposition *)
  let covar_llt := LLT_compute nx (triangularView_Lower covar0) in
  let proc_covar_llt := LLT_compute nx (triangularView_Lower proc_covar0) in
  let obs_covar_llt := LLT_compute nz (triangularView_Lower obs_covar0) in
  (* lower triangular Cholesky covariance factors *)
  let s1 := assign_chol_covar (matrixL covar_llt) s0 in
  let s2 := assign_chol_proc_covar (matrixL proc_covar_llt) s1 in
  assign_chol_obs_covar (matrixL obs_covar_llt) s2.

(** ** The variant hook surface

    What the core calls on [Derived] (CRTP).  A hook that takes a [Ref] it
    may write returns the new contents of that argument; the covariance
    hooks are members of the same object and may read it. *)

Record Derived : Type := MkDerived {
  wm0   : K;
  wmi   : K;
  gamma : K;
  (* _f(state sigma column [in, out], control, noise column, del) *)
  _f : vector -> vector -> vector -> K -> vector;
  (* _h(state sigma column, observation sigma column [in, out], noise column) *)
  _h : vector -> vector -> vector -> vector;
  (* _process_covar_sp(covar_k [in, out], _chol_covar [in, out]) *)
  _process_covar_sp : SigmaBase -> matrix -> matrix -> matrix * matrix;
  (* _innovation_covar_sp(inov_covar_k [in, out]) *)
  _innovation_covar_sp : SigmaBase -> matrix -> matrix;
  (* _kalman_gain_sp(kalman_gain_k [in, out], _cross_covar [in, out]) *)
  _kalman_gain_sp : SigmaBase -> matrix -> matrix -> matrix * matrix;
  (* _update_covar_sp(covar_k [in, out], _chol_covar [in, out]) *)
  _update_covar_sp : SigmaBase -> matrix -> matrix -> matrix * matrix
}.

Variable D : Derived.

(** ** _generate_sigmas (lines 177-204) *)

(** The body of [for (unsigned i = 1; i <= L; ++i)]. *)
Definition sigma_step (aug_vector : vector) (sqrt_gamma : K) (aug_matrix : matrix)
    (i : nat) (sigmas : matrix) : matrix :=
  let sigmas1 :=
    assign_col 0 L i
      (vadd aug_vector (vscale sqrt_gamma (col (i - 1) aug_matrix))) sigmas in
  assign_col 0 L (i + L)
    (vsub aug_vector (vscale sqrt_gamma (col (i - 1) aug_matrix))) sigmas1.

Definition _generate_sigmas (state_k : vector) (covar_k : matrix) (s : SigmaBase)
  : bool * SigmaBase :=
  (* lower Cholesky factor of state covariance *)
  let covar_llt := LLT_compute nx (triangularView_Lower covar_k) in
  let s := assign_chol_covar (matrixL covar_llt) s in
  let proc_noise_k := proc_noise (base s) in
  let obs_noise_k := obs_noise (base s) in
  (* populate augmented vector *)
  let s := set_aug_vector (assign_segment 0 nx state_k (_aug_vector s)) s in
  let s := set_aug_vector (assign_segment nx nx proc_noise_k (_aug_vector s)) s in
  let s := set_aug_vector (assign_segment (2 * nx) nz obs_noise_k (_aug_vector s)) s in
  (* set first to augmented vector *)
  let s := set_aug_sigmas (assign_col 0 L 0 (_aug_vector s) (_aug_sigmas s)) s in
  let sqrt_gamma := s_sqrt K (gamma D) in
  let s :=
    set_aug_sigmas
      (for_loop 1 L (sigma_step (_aug_vector s) sqrt_gamma (_aug_matrix s))
                (_aug_sigmas s)) s in
  (true, s).

(** ** _process (lines 98-122) *)

(** [_f(_state_sigmas.col(i), control_k, _proc_noise_sigmas.col(i), del_k)]:
    the process model overwrites state sigma column [i] in place. *)
Definition propagate_f (control_k : vector) (del_k : K) (i : nat) (s : SigmaBase)
  : SigmaBase :=
  let noise_i := col i (_proc_noise_sigmas s) in
  set_aug_sigmas
    (assign_col 0 nx i (_f D (col i (_state_sigmas s)) control_k noise_i del_k)
                (_aug_sigmas s)) s.

(** The body of [for (unsigned i = 1; i < r; ++i)] in [_process]; the loop
    carries the object and the caller's [state_k]. *)
Definition process_step (control_k : vector) (del_k : K) (i : nat)
    (st : SigmaBase * vector) : SigmaBase * vector :=
  let s := propagate_f control_k del_k i (fst st) in
  (* accumulate state mean *)
  (s, assign_segment 0 nx
        (vadd (snd st) (vscale (wmi D) (col i (_state_sigmas s)))) (snd st)).

(** [state_k] is a [Ref] to the caller's state vector: it is read by the
    generator and then overwritten with the weighted mean.  The result is
    the returned flag, the new contents of [state_k] and the object. *)
Definition _process (state_k control_k : vector) (del_k : K) (s : SigmaBase)
  : bool * vector * SigmaBase :=
  (* generate sigma points *)
  let covar_k := covar (base s) in
  let s := snd (_generate_sigmas state_k covar_k s) in
  (* propagate first sigma point through process model *)
  let s := propagate_f control_k del_k 0 s in
  let state_k :=
    assign_segment 0 nx (vscale (wm0 D) (col 0 (_state_sigmas s))) state_k in
  (* propagate the remaining 2*L sigma points through process model *)
  let st := for_loop 1 (r - 1) (process_step control_k del_k) (s, state_k) in
  (true, snd st, fst st).

(** ** _process_covar (lines 124-129) *)
Definition _process_covar (covar_k : matrix) (s : SigmaBase)
  : bool * matrix * SigmaBase :=
  let out := _process_covar_sp D s covar_k (_chol_covar s) in
  (true, assign_block 0 0 nx nx (fst out) covar_k, assign_chol_covar (snd out) s).

(** ** _observe (lines 131-154) *)

(** [_h(_state_sigmas.col(i), _obs_sigmas.col(i), _obs_noise_sigmas.col(i))]:
    the observation model writes observation sigma column [i]. *)
Definition propagate_h (i : nat) (s : SigmaBase) : SigmaBase :=
  let noise_i := col i (_obs_noise_sigmas s) in
  set_obs_sigmas
    (assign_col 0 nz i (_h D (col i (_state_sigmas s)) (col i (_obs_sigmas s)) noise_i)
                (_obs_sigmas s)) s.

Definition observe_step (i : nat) (st : SigmaBase * vector) : SigmaBase * vector :=
  let s := propagate_h i (fst st) in
  (* accumulate observation mean *)
  (s, assign_segment 0 nz
        (vadd (snd st) (vscale (wmi D) (col i (_obs_sigmas s)))) (snd st)).

Definition _observe (observation_k : vector) (s : SigmaBase)
  : bool * vector * SigmaBase :=
  (* regenerate sigma points *)
  let state_k := state (base s) in
  let covar_k := covar (base s) in
  let s := snd (_generate_sigmas state_k covar_k s) in
  (* propagate first sigma point through observation model *)
  let s := propagate_h 0 s in
  let observation_k :=
    assign_segment 0 nz (vscale (wm0 D) (col 0 (_obs_sigmas s))) observation_k in
  (* propagate the remaining 2*L sigma point through observation model *)
  let st := for_loop 1 (r - 1) observe_step (s, observation_k) in
  (true, snd st, fst st).

(** ** _innovation_covar, _kalman_gain, _update_covar (lines 156-175) *)

Definition _innovation_covar (inov_covar_k : matrix) (s : SigmaBase)
  : bool * matrix * SigmaBase :=
  (true,
   assign_block 0 0 nz nz (_innovation_covar_sp D s inov_covar_k) inov_covar_k,
   s).

Definition _kalman_gain (kalman_gain_k : matrix) (s : SigmaBase)
  : bool * matrix * SigmaBase :=
  let out := _kalman_gain_sp D s kalman_gain_k (_cross_covar s) in
  (true, assign_block 0 0 nx nz (fst out) kalman_gain_k,
   set_cross_covar (assign_block 0 0 nx nz (snd out) (_cross_covar s)) s).

Definition _update_covar (covar_k : matrix) (s : SigmaBase)
  : bool * matrix * SigmaBase :=
  let out := _update_covar_sp D s covar_k (_chol_covar s) in
  (true, assign_block 0 0 nx nx (fst out) covar_k, assign_chol_covar (snd out) s).

(** ** The life of an object *)

(** Modelled from the spec: the filter-cycle driver (kf_base.h, which is not
    among the sources).  It owns the state and covariance estimates, hands
    them to the operations by reference and keeps what they wrote;
    [store_estimate] is that write-back, with any contents. *)
Definition store_estimate (state_k : vector) (covar_k : matrix) (s : SigmaBase)
  : SigmaBase :=
  {| base := {| state := state_k; covar := covar_k;
                proc_covar := proc_covar (base s); obs_covar := obs_covar (base s);
                proc_noise := proc_noise (base s); obs_noise := obs_noise (base s) |};
     _aug_vector := _aug_vector s; _aug_matrix := _aug_matrix s;
     _aug_sigmas := _aug_sigmas s; _obs_sigmas := _obs_sigmas s;
     _cross_covar := _cross_covar s |}.

(** An object is constructed over the storage [mem] and then driven through
    the operations, in any order and with any arguments. *)
Inductive reachable (mem : SigmaBase) : SigmaBase -> Prop :=
| reach_ctor : forall state0 covar0 proc_covar0 obs_covar0,
    reachable mem (SigmaBase_ctor mem state0 covar0 proc_covar0 obs_covar0)
| reach_store : forall s state_k covar_k,
    reachable mem s -> reachable mem (store_estimate state_k covar_k s)
| reach_generate_sigmas : forall s state_k covar_k,
    reachable mem s -> reachable mem (snd (_generate_sigmas state_k covar_k s))
| reach_process : forall s state_k control_k del_k,
    reachable mem s -> reachable mem (object (_process state_k control_k del_k s))
| reach_process_covar : forall s covar_k,
    reachable mem s -> reachable mem (object (_process_covar covar_k s))
| reach_observe : forall s observation_k,
    reachable mem s -> reachable mem (object (_observe observation_k s))
| reach_innovation_covar : forall s inov_covar_k,
    reachable mem s -> reachable mem (object (_innovation_covar inov_covar_k s))
| reach_kalman_gain : forall s kalman_gain_k,
    reachable mem s -> reachable mem (object (_kalman_gain kalman_gain_k s))
| reach_update_covar : forall s covar_k,
    reachable mem s -> reachable mem (object (_update_covar covar_k s)).

(** The coefficients of the L x L augmented matrix that lie in none of its
    three diagonal blocks. *)
Definition off_diagonal (i j : nat) : Prop :=
  i < L /\ j < L /\
  ((i < nx /\ nx <= j) \/
   (nx <= i < 2 * nx /\ (j < nx \/ 2 * nx <= j)) \/
   (2 * nx <= i /\ j < 2 * nx)).

End Core.

(** Equality of fixed-size vectors and matrices: coefficient by coefficient
    over the extent. *)
Definition vec_eq {K : scalar_ops} (n : nat) (u v : vector K) : Prop :=
  forall i, i < n -> u i = v i.
Definition mat_eq {K : scalar_ops} (nr nc : nat) (A B : matrix K) : Prop :=
  forall i j, i < nr -> j < nc -> A i j = B i j.

(** The two noise-factor views of [s'] read as those of [s]. *)
Definition same_noise_factors {K : scalar_ops} (nx nz : nat) (s s' : SigmaBase K)
  : Prop :=
  mat_eq nx nx (_chol_proc_covar nx s') (_chol_proc_covar nx s) /\
  mat_eq nz nz (_chol_obs_covar nx s') (_chol_obs_covar nx s).

(** [n] as a scalar: [1 + ... + 1]. *)
Fixpoint scalar_of_nat (K : scalar_ops) (n : nat) : K :=
  match n with
  | 0 => s_zero K
  | S n' => s_add K (scalar_of_nat K n') (s_one K)
  end.

(** [f lo + f (lo+1) + ... + f (lo+n-1)], summed in loop order. *)
Fixpoint sum_range (K : scalar_ops) (f : nat -> K) (lo n : nat) : K :=
  match n with
  | 0 => s_zero K
  | S n' => s_add K (sum_range K f lo n') (f (lo + n'))
  end.

(** ** A reference instance of Eigen's LLT

    To run the model on concrete matrices the [LLT_compute] parameter needs a
    value.  This is the unblocked in-place loop of Eigen's
    [llt_inplace<Scalar, Lower>], which [LLT::compute] runs on small matrices:
    at column [k] it forms [x = A(k,k) - |A(k,0..k-1)|^2], stops with
    [NumericalIssue] when [x <= 0], and otherwise stores [sqrt x] and scales
    the column below.  It needs a division and the test [x <= 0] besides the
    operations of the core. *)
Section ReferenceLLT.

Variable K : scalar_ops.
Variable s_div : K -> K -> K.
Variable s_lez : K -> bool.

(** [A.row(i).head(k)] dot [A.row(k').head(k)] *)
Definition row_dot (i k' k : nat) (A : matrix K) : K :=
  for_loop 0 k (fun j acc => s_add K acc (s_mul K (A i j) (A k' j))) (s_zero K).

Fixpoint llt_unblocked (n k todo : nat) (mat : matrix K)
  : matrix K * ComputationInfo :=
  match todo with
  | 0 => (mat, Success)
  | S todo' =>
      let x := if k =? 0 then mat k k
               else s_sub K (mat k k) (row_dot k k k mat) in
      if s_lez x then (mat, NumericalIssue)
      else
        let x := s_sqrt K x in
        let mat1 : matrix K :=
          fun i j => if (i =? k) && (j =? k) then x else mat i j in
        let mat2 : matrix K :=
          fun i j =>
            if (j =? k) && (k <? i) && (i <? n)
            then s_div (if k =? 0 then mat1 i k
                        else s_sub K (mat1 i k) (row_dot i k k mat1)) x
            else mat1 i j in
        llt_unblocked n (S k) todo' mat2
  end.

Definition reference_LLT (n : nat) (A : matrix K) : LLT K :=
  let res := llt_unblocked n 0 n A in
  {| m_matrix := fst res; m_info := snd res |}.

End ReferenceLLT.

(** ** Two scalar types

    [binary64] is IEEE double precision, the scalar the filter runs on;
    [exact_Z] is an exact arithmetic, in which the ring laws hold. *)

Definition binary64 : scalar_ops :=
  {| scalar_t := float;
     s_zero := 0%float; s_one := 1%float;
     s_add := PrimFloat.add; s_mul := PrimFloat.mul; s_sub := PrimFloat.sub;
     s_opp := PrimFloat.opp; s_sqrt := PrimFloat.sqrt |}.

Definition binary64_LLT : nat -> matrix binary64 -> LLT binary64 :=
  @reference_LLT binary64 PrimFloat.div (fun x => PrimFloat.leb x 0%float).

Definition exact_Z : scalar_ops :=
  {| scalar_t := Z;
     s_zero := 0%Z; s_one := 1%Z;
     s_add := Z.add; s_mul := Z.mul; s_sub := Z.sub;
     s_opp := Z.opp; s_sqrt := Z.sqrt |}.

Definition exact_Z_LLT : nat -> matrix exact_Z -> LLT exact_Z :=
  @reference_LLT exact_Z Z.div (fun x => Z.leb x 0%Z).

(** ** Concrete filters used to run the model

    One state dimension and one observation dimension ([nx = 1], [nz = 1],
    so [L = 3] and [r = 7]), with the models of the end-to-end scenario of
    the specification, [f(x,u,w,dt) = x + w] and [h(x,w) = x + w].  The noise
    covariances are taken as 0.25 and 4, which binary64 holds exactly. *)
Module Scenario.

Definition const_matrix (K : scalar_ops) (c : K) : matrix K := fun _ _ => c.
Definition const_vector (K : scalar_ops) (c : K) : vector K := fun _ => c.

(** A variant over [K] with additive-noise models; its covariance hooks
    leave every argument as it is. *)
Definition variant (K : scalar_ops) (w0 wi g : K) : Derived K :=
  {| wm0 := w0; wmi := wi; gamma := g;
     _f := fun x _ w _ => vadd x w;
     _h := fun x _ w => vadd x w;
     _process_covar_sp := fun _ covar_k chol => (covar_k, chol);
     _innovation_covar_sp := fun _ inov => inov;
     _kalman_gain_sp := fun _ gain cross => (gain, cross);
     _update_covar_sp := fun _ covar_k chol => (covar_k, chol) |}.

(** The same variant with the identity as process model. *)
Definition identity_variant (K : scalar_ops) (w0 wi g : K) : Derived K :=
  {| wm0 := w0; wmi := wi; gamma := g;
     _f := fun x _ _ _ => x;
     _h := fun x _ w => vadd x w;
     _process_covar_sp := fun _ covar_k chol => (covar_k, chol);
     _innovation_covar_sp := fun _ inov => inov;
     _kalman_gain_sp := fun _ gain cross => (gain, cross);
     _update_covar_sp := fun _ covar_k chol => (covar_k, chol) |}.

(** Storage in which every coefficient holds [c]: what a default-constructed
    object may contain before any write. *)
Definition storage (K : scalar_ops) (c : K) : SigmaBase K :=
  {| base := KFBase_ctor (const_vector K c) (const_matrix K c)
                         (const_matrix K c) (const_matrix K c);
     _aug_vector := const_vector K c;
     _aug_matrix := const_matrix K c;
     _aug_sigmas := const_matrix K c;
     _obs_sigmas := const_matrix K c;
     _cross_covar := const_matrix K c |}.

(** binary64: state 0, covariance 1, process noise 0.25, observation noise
    4, constructed over storage that holds 7 everywhere. *)
Definition filter64 : SigmaBase binary64 :=
  SigmaBase_ctor binary64_LLT 1 1 (storage binary64 7%float)
    (const_vector binary64 0%float) (const_matrix binary64 1%float)
    (const_matrix binary64 0.25%float) (const_matrix binary64 4%float).

(** The same filter constructed over zeroed storage. *)
Definition filter64_zeroed : SigmaBase binary64 :=
  SigmaBase_ctor binary64_LLT 1 1 (storage binary64 0%float)
    (const_vector binary64 0%float) (const_matrix binary64 1%float)
    (const_matrix binary64 0.25%float) (const_matrix binary64 4%float).

(** gamma = 3, wm0 = 0, wmi = 1/6. *)
Definition ukf64 : Derived binary64 :=
  variant binary64 0%float (1 / 6)%float 3%float.

(** A variant whose spread factor is negative. *)
Definition ukf64_negative_gamma : Derived binary64 :=
  variant binary64 0%float (1 / 6)%float (-1)%float.

(** Exact arithmetic: state 5, covariances 4, 9 and 16 (factors 2, 3, 4),
    gamma = 4, wm0 = -5, wmi = 1, so that wm0 + 6 wmi = 1. *)
Definition filterZ : SigmaBase exact_Z :=
  SigmaBase_ctor exact_Z_LLT 1 1 (storage exact_Z 7%Z)
    (const_vector exact_Z 5%Z) (const_matrix exact_Z 4%Z)
    (const_matrix exact_Z 9%Z) (const_matrix exact_Z 16%Z).

Definition ukfZ : Derived exact_Z := identity_variant exact_Z (-5)%Z 1%Z 4%Z.

End Scenario.

(** ** What a hook and a factorization can read

    A hook receives its vector arguments as [Ref]s of fixed extent
    ([Ref<state_t>] has [nx] rows, [Ref<obs_t>] has [nz]), and
    [LLT<Matrix<scalar_t,n,n>>] receives an [n] by [n] matrix: neither can
    depend on a coefficient beyond that extent.  A coefficient function says
    more than the extent holds, so the condition is stated where a property
    needs it. *)
Definition f_reads_extent {K : scalar_ops} (nx : nat) (D : Derived K) : Prop :=
  forall (x x' u w w' : vector K) (d : K),
    vec_eq nx x x' -> vec_eq nx w w' ->
    vec_eq nx (_f D x u w d) (_f D x' u w' d).

Definition h_reads_extent {K : scalar_ops} (nx nz : nat) (D : Derived K) : Prop :=
  forall (x x' o o' w w' : vector K),
    vec_eq nx x x' -> vec_eq nz o o' -> vec_eq nz w w' ->
    vec_eq nz (_h D x o w) (_h D x' o' w').

Definition LLT_reads_extent {K : scalar_ops}
    (LLT_compute : nat -> matrix K -> LLT K) : Prop :=
  forall (n : nat) (A A' : matrix K),
    mat_eq n n A A' ->
    mat_eq n n (m_matrix (LLT_compute n A)) (m_matrix (LLT_compute n A')).

(** More concrete filters: exact arithmetic over zeroed storage, and a variant
    of exact arithmetic with the additive-noise models. *)
Module Coverage.

Definition filterZ_zeroed : SigmaBase exact_Z :=
  SigmaBase_ctor exact_Z_LLT 1 1 (Scenario.storage exact_Z 0%Z)
    (Scenario.const_vector exact_Z 5%Z) (Scenario.const_matrix exact_Z 4%Z)
    (Scenario.const_matrix exact_Z 9%Z) (Scenario.const_matrix exact_Z 16%Z).

(** gamma = 4, wm0 = -5, wmi = 1, [f(x,u,w,dt) = x + w], [h(x,w) = x + w]. *)
Definition additive_ukfZ : Derived exact_Z :=
  Scenario.variant exact_Z (-5)%Z 1%Z 4%Z.

(** The same with gamma = 0. *)
Definition collapsed_ukfZ : Derived exact_Z :=
  Scenario.variant exact_Z (-5)%Z 1%Z 0%Z.

(** A 2 by 2 covariance, 4 on the diagonal and 1 beside it, and a matrix with
    the same lower triangle that holds 9 above the diagonal. *)
Definition covar2 : matrix binary64 :=
  fun i j => if i =? j then 4%float else 1%float.

Definition covar2_asymmetric : matrix binary64 :=
  fun i j => if j <=? i then covar2 i j else 9%float.

(** A binary64 filter with two state dimensions and one observation
    dimension ([L = 5], [r = 11]). *)
Definition filter64_nx2 : SigmaBase binary64 :=
  SigmaBase_ctor binary64_LLT 2 1 (Scenario.storage binary64 7%float)
    (Scenario.const_vector binary64 0%float) covar2
    covar2 (Scenario.const_matrix binary64 4%float).

End Coverage.

(** A binary64 filter whose spread absorbs its state: state 1/10, covariance
    2^120 (factor 2^60), identity process model, gamma = 3, and the weights
    wm0 = -1/2 and wmi = 1/4, whose sum wm0 + 6 wmi is exactly 1. *)
Module Absorbing.

Definition tenth : float := (1 / 10)%float.

Definition ukf64 : Derived binary64 :=
  Scenario.identity_variant binary64 (-0.5)%float 0.25%float 3%float.

Definition filter64 : SigmaBase binary64 :=
  SigmaBase_ctor binary64_LLT 1 1 (Scenario.storage binary64 0%float)
    (Scenario.const_vector binary64 tenth)
    (Scenario.const_matrix binary64 0x1p120%float)
    (Scenario.const_matrix binary64 0.25%float)
    (Scenario.const_matrix binary64 4%float).

End Absorbing.

(** ** Sequences of calls

    One call on an object with its arguments, and a sequence of calls run
    from a given object.  [Store] is the write-back of the driver
    ([store_estimate]); the others are the generator and the six
    operations. *)
Section Operations.

Variable K : scalar_ops.
Variable LLT_compute : nat -> matrix K -> LLT K.
Variables nx nz : nat.
Variable D : Derived K.

Inductive operation : Type :=
| Store (state_k : vector K) (covar_k : matrix K)
| GenerateSigmas (state_k : vector K) (covar_k : matrix K)
| Process (state_k control_k : vector K) (del_k : K)
| ProcessCovar (covar_k : matrix K)
| Observe (observation_k : vector K)
| InnovationCovar (inov_covar_k : matrix K)
| KalmanGain (kalman_gain_k : matrix K)
| UpdateCovar (covar_k : matrix K).

Definition perform (o : operation) (s : SigmaBase K) : SigmaBase K :=
  match o with
  | Store state_k covar_k => store_estimate state_k covar_k s
  | GenerateSigmas state_k covar_k =>
      snd (_generate_sigmas LLT_compute nx nz D state_k covar_k s)
  | Process state_k control_k del_k =>
      object (_process LLT_compute nx nz D state_k control_k del_k s)
  | ProcessCovar covar_k => object (_process_covar nx D covar_k s)
  | Observe observation_k => object (_observe LLT_compute nx nz D observation_k s)
  | InnovationCovar inov_covar_k => object (_innovation_covar nz D inov_covar_k s)
  | KalmanGain kalman_gain_k => object (_kalman_gain nx nz D kalman_gain_k s)
  | UpdateCovar covar_k => object (_update_covar nx D covar_k s)
  end.

Fixpoint run (ops : list operation) (s : SigmaBase K) : SigmaBase K :=
  match ops with
  | nil => s
  | cons o ops' => run ops' (perform o s)
  end.

End Operations.

(** * Properties *)

(** Case analysis on the index comparisons of the block writes. *)
Ltac index_cases :=
  repeat match goal with
    | |- context [?a <=? ?b] => destruct (Nat.leb_spec a b)
    | |- context [?a <? ?b] => destruct (Nat.ltb_spec a b)
    | |- context [?a =? ?b] => destruct (Nat.eqb_spec a b)
    end;
  cbn [andb orb negb]; try lia; try reflexivity.

(** Two reads of one vector or matrix at equal indices. *)
Ltac same_index :=
  rewrite ?Nat.sub_0_r; try reflexivity; repeat (f_equal; try lia).

Lemma for_loop_invariant (S : Type) (P : nat -> S -> Prop) (body : nat -> S -> S) :
  forall n lo s,
    P lo s ->
    (forall i t, lo <= i < lo + n -> P i t -> P (Datatypes.S i) (body i t)) ->
    P (lo + n) (for_loop lo n body s).
Proof.
  induction n as [|n IH]; intros lo s H0 Hstep; simpl.
  - rewrite Nat.add_0_r. exact H0.
  - rewrite <- Nat.add_succ_comm. apply IH.
    + apply Hstep; [lia | exact H0].
    + intros i t Hi Ht. apply Hstep; [lia | exact Ht].
Qed.

Section Writes.

Variable K : scalar_ops.

(** A write through a block view, read back inside and outside the block. *)
Lemma assign_block_inside (r0 c0 nr nc : nat) (B M : matrix K) (i j : nat) :
  r0 <= i < r0 + nr -> c0 <= j < c0 + nc ->
  assign_block r0 c0 nr nc B M i j = B (i - r0) (j - c0).
Proof. intros Hi Hj. unfold assign_block. index_cases. Qed.

Lemma assign_block_outside (r0 c0 nr nc : nat) (B M : matrix K) (i j : nat) :
  i < r0 \/ r0 + nr <= i \/ j < c0 \/ c0 + nc <= j ->
  assign_block r0 c0 nr nc B M i j = M i j.
Proof. intros H. unfold assign_block. index_cases. Qed.

Lemma assign_segment_inside (off n : nat) (v a : vector K) (i : nat) :
  off <= i < off + n -> assign_segment off n v a i = v (i - off).
Proof. intros Hi. unfold assign_segment. index_cases. Qed.

Lemma assign_segment_outside (off n : nat) (v a : vector K) (i : nat) :
  i < off \/ off + n <= i -> assign_segment off n v a i = a i.
Proof. intros Hi. unfold assign_segment. index_cases. Qed.

Lemma assign_col_inside (r0 nr j : nat) (v : vector K) (M : matrix K) (i : nat) :
  r0 <= i < r0 + nr -> assign_col r0 nr j v M i j = v (i - r0).
Proof. intros Hi. unfold assign_col. index_cases. Qed.

Lemma assign_col_outside (r0 nr j : nat) (v : vector K) (M : matrix K) (i k : nat) :
  k <> j \/ i < r0 \/ r0 + nr <= i -> assign_col r0 nr j v M i k = M i k.
Proof. intros H. unfold assign_col. index_cases. Qed.

End Writes.

Section Generator.

Variable K : scalar_ops.
Variable LLT_compute : nat -> matrix K -> LLT K.
Variables nx nz : nat.
Variable D : Derived K.

Local Notation "x + y" := (s_add K x y) : scalar_scope.
Local Notation "x - y" := (s_sub K x y) : scalar_scope.
Local Notation "x * y" := (s_mul K x y) : scalar_scope.
Local Abbreviation L := (L nx nz).
Local Abbreviation r := (r nx nz).
Local Abbreviation generate := (_generate_sigmas LLT_compute nx nz D).
Local Abbreviation ctor := (SigmaBase_ctor LLT_compute nx nz).

(** The symmetric columns the loop of the generator leaves behind. *)
Lemma sigma_loop_spec (a : vector K) (g : K) (M S0 : matrix K) :
  forall i j,
    for_loop 1 L (sigma_step nx nz a g M) S0 i j =
      if i <? L then
        if (1 <=? j) && (j <=? L) then (a i + g * M i (j - 1)%nat)%sc
        else if (L + 1 <=? j) && (j <=? L + L) then (a i - g * M i (j - L - 1)%nat)%sc
        else S0 i j
      else S0 i j.
Proof.
  pose (P := fun (k : nat) (S1 : matrix K) => forall i j,
    S1 i j =
      if i <? L then
        if (1 <=? j) && (j <? k) then (a i + g * M i (j - 1)%nat)%sc
        else if (L + 1 <=? j) && (j <? k + L) then (a i - g * M i (j - L - 1)%nat)%sc
        else S0 i j
      else S0 i j).
  assert (H : P (1 + L) (for_loop 1 L (sigma_step nx nz a g M) S0)).
  { apply for_loop_invariant.
    - intros i j. index_cases.
    - intros k S1 Hk HP i j. unfold sigma_step, assign_col, vadd, vsub, vscale, col.
      rewrite HP. index_cases; subst; same_index. }
  intros i j. rewrite (H i j). index_cases.
Qed.

(** What one run of the generator leaves in the object. *)
Lemma generate_base state_k covar_k s :
  base (snd (generate state_k covar_k s)) = base s.
Proof. reflexivity. Qed.

Lemma generate_aug_matrix state_k covar_k s :
  _aug_matrix (snd (generate state_k covar_k s)) =
    assign_block 0 0 nx nx
      (matrixL (LLT_compute nx (triangularView_Lower covar_k))) (_aug_matrix s).
Proof. reflexivity. Qed.

Lemma generate_aug_vector state_k covar_k s i :
  _aug_vector (snd (generate state_k covar_k s)) i =
    if i <? nx then state_k i
    else if i <? 2 * nx then proc_noise (base s) (i - nx)
    else if i <? L then obs_noise (base s) (i - 2 * nx)
    else _aug_vector s i.
Proof.
  unfold _generate_sigmas, L; cbn [snd set_aug_vector set_aug_sigmas _aug_vector
    assign_chol_covar set_aug_matrix base].
  unfold assign_segment. index_cases; same_index.
Qed.

Lemma generate_aug_sigmas state_k covar_k s i j :
  i < L -> j < r ->
  let s' := snd (generate state_k covar_k s) in
  let sqrt_gamma := s_sqrt K (gamma D) in
  _aug_sigmas s' i j =
    if j =? 0 then _aug_vector s' i
    else if j <=? L
    then (_aug_vector s' i + sqrt_gamma * _aug_matrix s' i (j - 1)%nat)%sc
    else (_aug_vector s' i - sqrt_gamma * _aug_matrix s' i (j - L - 1)%nat)%sc.
Proof.
  intros Hi Hj s' sqrt_gamma. subst s' sqrt_gamma.
  unfold r in Hj.
  unfold _generate_sigmas at 1; cbn [snd set_aug_sigmas _aug_sigmas].
  rewrite sigma_loop_spec.
  cbn [set_aug_vector set_aug_sigmas _aug_vector _aug_matrix _aug_sigmas
       assign_chol_covar set_aug_matrix base].
  unfold assign_col.
  index_cases; same_index.
Qed.

(** The three aliased factor blocks after the constructor. *)
Lemma ctor_blocks mem state0 covar0 proc_covar0 obs_covar0 :
  let s := ctor mem state0 covar0 proc_covar0 obs_covar0 in
  mat_eq nx nx (_chol_covar s)
    (matrixL (LLT_compute nx (triangularView_Lower covar0))) /\
  mat_eq nx nx (_chol_proc_covar nx s)
    (matrixL (LLT_compute nx (triangularView_Lower proc_covar0))) /\
  mat_eq nz nz (_chol_obs_covar nx s)
    (matrixL (LLT_compute nz (triangularView_Lower obs_covar0))).
Proof.
  cbv zeta. unfold mat_eq, _chol_covar, _chol_proc_covar, _chol_obs_covar, block.
  unfold SigmaBase_ctor, assign_chol_obs_covar, assign_chol_proc_covar,
    assign_chol_covar; cbn [set_aug_matrix _aug_matrix].
  repeat split; intros i j Hi Hj.
  - rewrite assign_block_outside by lia.
    rewrite assign_block_outside by lia.
    rewrite assign_block_inside by lia. same_index.
  - rewrite assign_block_outside by lia.
    rewrite assign_block_inside by lia. same_index.
  - rewrite assign_block_inside by lia. same_index.
Qed.

(** The constructor writes nothing outside the three diagonal blocks. *)
Lemma ctor_outside_blocks mem state0 covar0 proc_covar0 obs_covar0 i j :
  (i < nx /\ nx <= j) \/ (nx <= i < 2 * nx /\ (j < nx \/ 2 * nx <= j)) \/
  (2 * nx <= i /\ j < 2 * nx) \/ L <= i \/ L <= j ->
  _aug_matrix (ctor mem state0 covar0 proc_covar0 obs_covar0) i j =
    _aug_matrix mem i j.
Proof.
  intros H. unfold L in H.
  unfold SigmaBase_ctor, assign_chol_obs_covar, assign_chol_proc_covar,
    assign_chol_covar; cbn [set_aug_matrix _aug_matrix].
  rewrite !assign_block_outside by lia. reflexivity.
Qed.

(** The generator writes the state-covariance block of the matrix only. *)
Lemma generate_aug_matrix_frame state_k covar_k s i j :
  nx <= i \/ nx <= j ->
  _aug_matrix (snd (generate state_k covar_k s)) i j = _aug_matrix s i j.
Proof.
  intros H. rewrite generate_aug_matrix. unfold assign_block. index_cases.
Qed.

Lemma generate_chol_covar state_k covar_k s :
  mat_eq nx nx (_chol_covar (snd (generate state_k covar_k s)))
    (matrixL (LLT_compute nx (triangularView_Lower covar_k))).
Proof.
  intros i j Hi Hj. unfold _chol_covar, block. rewrite generate_aug_matrix.
  unfold assign_block. index_cases; same_index.
Qed.

End Generator.

Section Steps.

Variable K : scalar_ops.
Variable LLT_compute : nat -> matrix K -> LLT K.
Variables nx nz : nat.
Variable D : Derived K.

Local Abbreviation L := (L nx nz).
Local Abbreviation r := (r nx nz).
Local Abbreviation generate := (_generate_sigmas LLT_compute nx nz D).
Local Abbreviation ctor := (SigmaBase_ctor LLT_compute nx nz).
Local Abbreviation process := (_process LLT_compute nx nz D).
Local Abbreviation observe := (_observe LLT_compute nx nz D).

(** The propagation loop of [_process] writes the sigma-point matrix and
    the caller's state, nothing else. *)
Lemma process_loop_frame control_k del_k n :
  forall lo st,
    let st' := for_loop lo n (process_step nx D control_k del_k) st in
    base (fst st') = base (fst st) /\
    _aug_vector (fst st') = _aug_vector (fst st) /\
    _aug_matrix (fst st') = _aug_matrix (fst st) /\
    _obs_sigmas (fst st') = _obs_sigmas (fst st) /\
    _cross_covar (fst st') = _cross_covar (fst st).
Proof.
  induction n as [|n IH]; intros lo st; cbn [for_loop].
  - repeat split.
  - destruct (IH (S lo) (process_step nx D control_k del_k lo st))
      as (Hb & Hv & Hm & Ho & Hc).
    cbv zeta. rewrite Hb, Hv, Hm, Ho, Hc. repeat split.
Qed.

(** The propagation loop of [_observe] writes the observation sigma points
    and the caller's observation, nothing else. *)
Lemma observe_loop_frame n :
  forall lo st,
    let st' := for_loop lo n (observe_step nx nz D) st in
    base (fst st') = base (fst st) /\
    _aug_vector (fst st') = _aug_vector (fst st) /\
    _aug_matrix (fst st') = _aug_matrix (fst st) /\
    _aug_sigmas (fst st') = _aug_sigmas (fst st) /\
    _cross_covar (fst st') = _cross_covar (fst st).
Proof.
  induction n as [|n IH]; intros lo st; cbn [for_loop].
  - repeat split.
  - destruct (IH (S lo) (observe_step nx nz D lo st)) as (Hb & Hv & Hm & Hs & Hc).
    cbv zeta. rewrite Hb, Hv, Hm, Hs, Hc. repeat split.
Qed.

Lemma process_frame state_k control_k del_k s :
  let s' := object (process state_k control_k del_k s) in
  let g := snd (generate state_k (covar (base s)) s) in
  base s' = base s /\ _aug_vector s' = _aug_vector g /\
  _aug_matrix s' = _aug_matrix g.
Proof.
  cbv zeta. unfold _process, object. cbn [snd].
  match goal with
  | |- context [for_loop ?lo ?n ?b ?st] =>
      destruct (process_loop_frame control_k del_k n lo st) as (Hb & Hv & Hm & _)
  end.
  rewrite Hb, Hv, Hm. repeat split.
Qed.

Lemma observe_frame observation_k s :
  let s' := object (observe observation_k s) in
  let g := snd (generate (state (base s)) (covar (base s)) s) in
  base s' = base s /\ _aug_vector s' = _aug_vector g /\
  _aug_matrix s' = _aug_matrix g /\ _aug_sigmas s' = _aug_sigmas g.
Proof.
  cbv zeta. unfold _observe, object. cbn [snd].
  match goal with
  | |- context [for_loop ?lo ?n ?b ?st] =>
      destruct (observe_loop_frame n lo st) as (Hb & Hv & Hm & Hs & _)
  end.
  rewrite Hb, Hv, Hm, Hs. repeat split.
Qed.

(** Every operation writes the augmented matrix inside its
    state-covariance block at most. *)
Lemma process_aug_matrix_frame state_k control_k del_k s i j :
  nx <= i \/ nx <= j ->
  _aug_matrix (object (process state_k control_k del_k s)) i j = _aug_matrix s i j.
Proof.
  intros H. destruct (process_frame state_k control_k del_k s) as (_ & _ & Hm).
  rewrite Hm. apply generate_aug_matrix_frame. exact H.
Qed.

Lemma observe_aug_matrix_frame observation_k s i j :
  nx <= i \/ nx <= j ->
  _aug_matrix (object (observe observation_k s)) i j = _aug_matrix s i j.
Proof.
  intros H. destruct (observe_frame observation_k s) as (_ & _ & Hm & _).
  rewrite Hm. apply generate_aug_matrix_frame. exact H.
Qed.

Lemma assign_chol_covar_frame (B : matrix K) s i j :
  nx <= i \/ nx <= j ->
  _aug_matrix (assign_chol_covar nx B s) i j = _aug_matrix s i j.
Proof.
  intros H. unfold assign_chol_covar. cbn [set_aug_matrix _aug_matrix].
  apply assign_block_outside. lia.
Qed.

(** A frame on the matrix outside the state-covariance block keeps both
    noise factors. *)
Lemma frame_keeps_noise_factors (s s' : SigmaBase K) :
  (forall i j, nx <= i \/ nx <= j -> _aug_matrix s' i j = _aug_matrix s i j) ->
  same_noise_factors nx nz s s'.
Proof.
  intros H. split; intros i j Hi Hj;
    unfold _chol_proc_covar, _chol_obs_covar, block; apply H; lia.
Qed.

(** No operation writes the noise means of the base: they stay as the
    constructor of the base left them. *)
Lemma reachable_noise_means mem s :
  reachable LLT_compute nx nz D mem s ->
  proc_noise (base s) = zero_vector K /\ obs_noise (base s) = zero_vector K.
Proof.
  induction 1 as [ | s st P _ IH | s st P _ IH | s st u d _ IH | s P _ IH
                 | s z _ IH | s P _ IH | s G _ IH | s P _ IH ];
    try exact IH.
  - split; reflexivity.
  - destruct (process_frame st u d s) as (Hb & _). rewrite Hb. exact IH.
  - destruct (observe_frame z s) as (Hb & _). rewrite Hb. exact IH.
Qed.

(** Throughout the life of an object, a coefficient of the augmented matrix
    outside the three diagonal blocks is the one its storage held before the
    constructor ran. *)
Lemma reachable_off_diagonal mem s i j :
  reachable LLT_compute nx nz D mem s ->
  off_diagonal nx nz i j ->
  _aug_matrix s i j = _aug_matrix mem i j.
Proof.
  intros Hs (Hi & Hj & Hout).
  assert (Hb : nx <= i \/ nx <= j) by lia.
  induction Hs as [ st P Q R | s st P _ IH | s st P _ IH | s st u d _ IH | s P _ IH
                  | s z _ IH | s P _ IH | s G _ IH | s P _ IH ];
    try exact IH.
  - apply ctor_outside_blocks. lia.
  - rewrite generate_aug_matrix_frame by exact Hb. exact IH.
  - rewrite process_aug_matrix_frame by exact Hb. exact IH.
  - unfold _process_covar, object; cbn [snd].
    rewrite assign_chol_covar_frame by exact Hb. exact IH.
  - rewrite observe_aug_matrix_frame by exact Hb. exact IH.
  - unfold _update_covar, object; cbn [snd].
    rewrite assign_chol_covar_frame by exact Hb. exact IH.
Qed.

(** Throughout the life of an object, the two noise blocks hold the factors
    of the noise covariances the constructor was given. *)
Lemma reachable_noise_factors mem s :
  reachable LLT_compute nx nz D mem s ->
  mat_eq nx nx (_chol_proc_covar nx s)
    (matrixL (LLT_compute nx (triangularView_Lower (proc_covar (base s))))) /\
  mat_eq nz nz (_chol_obs_covar nx s)
    (matrixL (LLT_compute nz (triangularView_Lower (obs_covar (base s))))).
Proof.
  assert (Hkeep : forall t t' : SigmaBase K,
    base t' = base t ->
    (forall i j, nx <= i \/ nx <= j -> _aug_matrix t' i j = _aug_matrix t i j) ->
    (mat_eq nx nx (_chol_proc_covar nx t)
       (matrixL (LLT_compute nx (triangularView_Lower (proc_covar (base t))))) /\
     mat_eq nz nz (_chol_obs_covar nx t)
       (matrixL (LLT_compute nz (triangularView_Lower (obs_covar (base t)))))) ->
    mat_eq nx nx (_chol_proc_covar nx t')
      (matrixL (LLT_compute nx (triangularView_Lower (proc_covar (base t'))))) /\
    mat_eq nz nz (_chol_obs_covar nx t')
      (matrixL (LLT_compute nz (triangularView_Lower (obs_covar (base t')))))).
  { intros t t' Hb Hm [Hp Ho]. rewrite Hb.
    destruct (frame_keeps_noise_factors t t' Hm) as [Hp' Ho'].
    split; intros i j Hi Hj.
    - rewrite (Hp' i j Hi Hj). apply Hp; assumption.
    - rewrite (Ho' i j Hi Hj). apply Ho; assumption. }
  induction 1 as [ st P Q R | s st P _ IH | s st P _ IH | s st u d _ IH | s P _ IH
                 | s z _ IH | s P _ IH | s G _ IH | s P _ IH ];
    try exact IH.
  - destruct (ctor_blocks LLT_compute nx nz mem st P Q R) as (_ & Hp & Ho).
    split; assumption.
  - apply (Hkeep s); [reflexivity | | exact IH].
    intros i j Hb. apply generate_aug_matrix_frame. exact Hb.
  - apply (Hkeep s); [ | | exact IH].
    + destruct (process_frame st u d s) as (Hb & _). exact Hb.
    + intros i j Hb. apply process_aug_matrix_frame. exact Hb.
  - apply (Hkeep s); [reflexivity | | exact IH].
    intros i j Hb. apply assign_chol_covar_frame. exact Hb.
  - apply (Hkeep s); [ | | exact IH].
    + destruct (observe_frame z s) as (Hb & _). exact Hb.
    + intros i j Hb. apply observe_aug_matrix_frame. exact Hb.
  - apply (Hkeep s); [reflexivity | | exact IH].
    intros i j Hb. apply assign_chol_covar_frame. exact Hb.
Qed.

End Steps.

(** ** Claims that hold of every scalar type

    Nothing is assumed of the scalar operations, of Eigen's LLT or of the
    variant's hooks: the statements below hold in binary64 as they stand. *)
Section Claims.

Variable K : scalar_ops.
Variable LLT_compute : nat -> matrix K -> LLT K.
Variables nx nz : nat.
Variable D : Derived K.

Local Notation "x + y" := (s_add K x y) : scalar_scope.
Local Notation "x - y" := (s_sub K x y) : scalar_scope.
Local Notation "x * y" := (s_mul K x y) : scalar_scope.
Local Abbreviation L := (L nx nz).
Local Abbreviation r := (r nx nz).
Local Abbreviation generate := (_generate_sigmas LLT_compute nx nz D).
Local Abbreviation ctor := (SigmaBase_ctor LLT_compute nx nz).
Local Abbreviation process := (_process LLT_compute nx nz D).
Local Abbreviation observe := (_observe LLT_compute nx nz D).

(** C5: for every [i] in [1..L] the generator sets column [i] of the
    augmented sigma-point matrix to the augmented vector plus
    [sqrt(gamma)] times column [i-1] of the augmented matrix, and column
    [i+L] to the augmented vector minus that scaled column. *)
Theorem C5_sigma_columns (state_k : vector K) (covar_k : matrix K)
    (s : SigmaBase K) (i : nat) :
  1 <= i <= L ->
  let s' := snd (generate state_k covar_k s) in
  let sqrt_gamma := s_sqrt K (gamma D) in
  vec_eq L (col i (_aug_sigmas s'))
    (vadd (_aug_vector s') (vscale sqrt_gamma (col (i - 1) (_aug_matrix s')))) /\
  vec_eq L (col (i + L) (_aug_sigmas s'))
    (vsub (_aug_vector s') (vscale sqrt_gamma (col (i - 1) (_aug_matrix s')))).
Proof.
  intros Hi s' sqrt_gamma. subst s' sqrt_gamma.
  split; intros k Hk; unfold col, vadd, vsub, vscale.
  - rewrite generate_aug_sigmas by (unfold r; lia).
    index_cases.
  - rewrite generate_aug_sigmas by (unfold r; lia).
    index_cases. same_index.
Qed.

(** C6 (as amended): the generator makes no test on the spread factor.
    Whatever [gamma] the variant supplies, it takes [sqrt(gamma)], builds
    the columns [1..2L] from it and returns [true]. *)
Theorem C6_spread_factor_unchecked (state_k : vector K) (covar_k : matrix K)
    (s : SigmaBase K) :
  let res := generate state_k covar_k s in
  let sqrt_gamma := s_sqrt K (gamma D) in
  fst res = true /\
  forall i j, i < L -> 1 <= j <= L ->
    _aug_sigmas (snd res) i j =
      (_aug_vector (snd res) i + sqrt_gamma * _aug_matrix (snd res) i (j - 1)%nat)%sc /\
    _aug_sigmas (snd res) i (j + L) =
      (_aug_vector (snd res) i - sqrt_gamma * _aug_matrix (snd res) i (j - 1)%nat)%sc.
Proof.
  cbv zeta. split; [reflexivity|].
  intros i j Hi Hj.
  split; rewrite generate_aug_sigmas by (unfold r; lia);
    index_cases; same_index.
Qed.

(** C2 (as amended): the status of a Cholesky factorization is never read.
    For every covariance matrix, positive-definite or not, the constructor
    and the generator store [matrixL()] of whatever the factorization left
    in the state-covariance block, the generator returns [true], and
    replacing the recorded status by any other changes nothing. *)
Theorem C2_factorization_status_unread (mem : SigmaBase K) (state0 : vector K)
    (covar0 proc_covar0 obs_covar0 : matrix K)
    (state_k : vector K) (covar_k : matrix K) (s : SigmaBase K)
    (status : nat -> matrix K -> ComputationInfo) :
  let LLT_other := fun n A =>
    {| m_matrix := m_matrix (LLT_compute n A); m_info := status n A |} in
  mat_eq nx nx (_chol_covar (ctor mem state0 covar0 proc_covar0 obs_covar0))
    (matrixL (LLT_compute nx (triangularView_Lower covar0))) /\
  fst (generate state_k covar_k s) = true /\
  mat_eq nx nx (_chol_covar (snd (generate state_k covar_k s)))
    (matrixL (LLT_compute nx (triangularView_Lower covar_k))) /\
  _generate_sigmas LLT_other nx nz D state_k covar_k s = generate state_k covar_k s /\
  SigmaBase_ctor LLT_other nx nz mem state0 covar0 proc_covar0 obs_covar0 =
    ctor mem state0 covar0 proc_covar0 obs_covar0.
Proof.
  cbv zeta. repeat split.
  - apply (ctor_blocks LLT_compute nx nz mem state0 covar0 proc_covar0 obs_covar0).
  - apply generate_chol_covar.
Qed.

(** C10: each of the six step operations returns [true], whatever the
    arguments, the stored covariance, the factorization and the hooks of
    the variant: none has a path that returns [false]. *)
Theorem C10_operations_return_true (s : SigmaBase K)
    (state_k control_k observation_k : vector K) (del_k : K)
    (covar_k inov_covar_k kalman_gain_k : matrix K) :
  returned (process state_k control_k del_k s) = true /\
  returned (_process_covar nx D covar_k s) = true /\
  returned (observe observation_k s) = true /\
  returned (_innovation_covar nz D inov_covar_k s) = true /\
  returned (_kalman_gain nx nz D kalman_gain_k s) = true /\
  returned (_update_covar nx D covar_k s) = true.
Proof. repeat split. Qed.

(** C7: after a regeneration the augmented vector holds the state it was
    given in rows [0,nx), zero in rows [nx,2nx) and zero in rows [2nx,L). *)
Theorem C7_augmented_vector_layout (mem s : SigmaBase K) (state_k : vector K)
    (covar_k : matrix K) :
  reachable LLT_compute nx nz D mem s ->
  let a := _aug_vector (snd (generate state_k covar_k s)) in
  (forall i, i < nx -> a i = state_k i) /\
  (forall i, nx <= i < 2 * nx -> a i = s_zero K) /\
  (forall i, 2 * nx <= i < L -> a i = s_zero K).
Proof.
  intros Hs a. subst a.
  destruct (reachable_noise_means Hs) as [Hp Ho].
  repeat split; intros i Hi; rewrite generate_aug_vector, ?Hp, ?Ho;
    unfold L in *; index_cases.
Qed.

(** C8: the constructor stores the factors of the two noise covariances in
    their diagonal blocks; the generator, the process step, the observation
    step and the three covariance operations leave those blocks as they
    are; the generator rewrites the state-covariance block with the factor
    of the covariance it is given. *)
Theorem C8_noise_factors_kept (mem s : SigmaBase K)
    (state0 state_k control_k observation_k : vector K) (del_k : K)
    (covar0 proc_covar0 obs_covar0 covar_k inov_covar_k kalman_gain_k : matrix K) :
  (mat_eq nx nx
     (_chol_proc_covar nx (ctor mem state0 covar0 proc_covar0 obs_covar0))
     (matrixL (LLT_compute nx (triangularView_Lower proc_covar0))) /\
   mat_eq nz nz
     (_chol_obs_covar nx (ctor mem state0 covar0 proc_covar0 obs_covar0))
     (matrixL (LLT_compute nz (triangularView_Lower obs_covar0)))) /\
  (same_noise_factors nx nz s (snd (generate state_k covar_k s)) /\
   same_noise_factors nx nz s (object (process state_k control_k del_k s)) /\
   same_noise_factors nx nz s (object (observe observation_k s)) /\
   same_noise_factors nx nz s (object (_process_covar nx D covar_k s)) /\
   same_noise_factors nx nz s (object (_innovation_covar nz D inov_covar_k s)) /\
   same_noise_factors nx nz s (object (_kalman_gain nx nz D kalman_gain_k s)) /\
   same_noise_factors nx nz s (object (_update_covar nx D covar_k s))) /\
  mat_eq nx nx (_chol_covar (snd (generate state_k covar_k s)))
    (matrixL (LLT_compute nx (triangularView_Lower covar_k))).
Proof.
  split; [|split; [|apply generate_chol_covar]].
  - destruct (ctor_blocks LLT_compute nx nz mem state0 covar0 proc_covar0 obs_covar0)
      as (_ & Hp & Ho).
    split; assumption.
  - repeat match goal with |- _ /\ _ => split end;
      apply frame_keeps_noise_factors; intros i j Hb.
    + apply generate_aug_matrix_frame. exact Hb.
    + apply process_aug_matrix_frame. exact Hb.
    + apply observe_aug_matrix_frame. exact Hb.
    + apply assign_chol_covar_frame. exact Hb.
    + reflexivity.
    + reflexivity.
    + apply assign_chol_covar_frame. exact Hb.
Qed.

(** C9: a second run of the generator on the same state and covariance,
    with the noise data of the object untouched, leaves the augmented
    sigma-point matrix coefficient for coefficient as the first run did. *)
Theorem C9_regeneration_idempotent (state_k : vector K) (covar_k : matrix K)
    (s : SigmaBase K) :
  let s1 := snd (generate state_k covar_k s) in
  let s2 := snd (generate state_k covar_k s1) in
  mat_eq L r (_aug_sigmas s2) (_aug_sigmas s1).
Proof.
  intros s1 s2 i j Hi Hj. subst s2.
  rewrite (generate_aug_sigmas LLT_compute nx nz D state_k covar_k s1 Hi Hj).
  subst s1.
  rewrite (generate_aug_sigmas LLT_compute nx nz D state_k covar_k s Hi Hj).
  cbv zeta.
  assert (Hv : forall k, k < L ->
    _aug_vector (snd (generate state_k covar_k (snd (generate state_k covar_k s)))) k =
    _aug_vector (snd (generate state_k covar_k s)) k).
  { intros k Hk. rewrite (generate_aug_vector LLT_compute nx nz D state_k covar_k
      (snd (generate state_k covar_k s))).
    rewrite generate_base, generate_aug_vector. index_cases. }
  assert (Hm : forall k l,
    _aug_matrix (snd (generate state_k covar_k (snd (generate state_k covar_k s)))) k l =
    _aug_matrix (snd (generate state_k covar_k s)) k l).
  { intros k l. rewrite !generate_aug_matrix. unfold assign_block. index_cases. }
  rewrite (Hv i Hi), !Hm. reflexivity.
Qed.

End Claims.

(** ** Claims of exact arithmetic

    The two algebraic properties need the scalar operations to obey the laws
    of a commutative ring.  binary64 does not obey these laws: there the two
    sides agree up to rounding at best, and not at all once the spread
    absorbs the state. *)
Section ExactArithmetic.

Variable K : scalar_ops.
Hypothesis K_ring :
  ring_theory (s_zero K) (s_one K) (s_add K) (s_mul K) (s_sub K) (s_opp K) eq.
Add Ring K_ring_tactic : K_ring.

Variable LLT_compute : nat -> matrix K -> LLT K.
Variables nx nz : nat.
Variable D : Derived K.

Local Notation "x + y" := (s_add K x y) : scalar_scope.
Local Notation "x - y" := (s_sub K x y) : scalar_scope.
Local Notation "x * y" := (s_mul K x y) : scalar_scope.
Local Notation "0" := (s_zero K) : scalar_scope.
Local Notation "1" := (s_one K) : scalar_scope.
Local Abbreviation L := (L nx nz).
Local Abbreviation r := (r nx nz).
Local Abbreviation generate := (_generate_sigmas LLT_compute nx nz D).
Local Abbreviation process := (_process LLT_compute nx nz D).

Lemma sum_range_app (f : nat -> K) (lo n m : nat) :
  sum_range K f lo (n + m) =
    (sum_range K f lo n + sum_range K f (lo + n) m)%sc.
Proof.
  induction m as [|m IH].
  - rewrite Nat.add_0_r. cbn [sum_range]. ring.
  - rewrite Nat.add_succ_r. cbn [sum_range]. rewrite IH, Nat.add_assoc. ring.
Qed.

Lemma sum_range_ext (f g : nat -> K) (lo n : nat) :
  (forall j, lo <= j < lo + n -> f j = g j) ->
  sum_range K f lo n = sum_range K g lo n.
Proof.
  induction n as [|n IH]; intros H; cbn [sum_range]; [reflexivity|].
  rewrite IH by (intros j Hj; apply H; lia).
  rewrite (H (lo + n)%nat) by lia. reflexivity.
Qed.

(** A point above the centre and its mirror image weigh as two centres. *)
Lemma sum_range_mirror (w a g : K) (m : nat -> K) (lo1 lo2 n : nat) :
  (sum_range K (fun j => w * (a + g * m (j - lo1)%nat)) lo1 n +
   sum_range K (fun j => w * (a - g * m (j - lo2)%nat)) lo2 n)%sc =
  (scalar_of_nat K (n + n) * (w * a))%sc.
Proof.
  induction n as [|n IH].
  - cbn [sum_range scalar_of_nat Nat.add]. ring.
  - rewrite Nat.add_succ_r. cbn [sum_range scalar_of_nat Nat.add].
    replace (lo1 + n - lo1)%nat with n by lia.
    replace (lo2 + n - lo2)%nat with n by lia.
    transitivity
      ((sum_range K (fun j => w * (a + g * m (j - lo1)%nat)) lo1 n +
        sum_range K (fun j => w * (a - g * m (j - lo2)%nat)) lo2 n) +
       (1 + 1) * (w * a))%sc; [ring|].
    rewrite IH. ring.
Qed.


(** The state sigma points and the running mean along the loop of
    [_process], when the process model hands its first argument back. *)
Lemma process_loop_identity (control_k : vector K) (del_k : K)
    (G : matrix K) (n : nat) (st : SigmaBase K * vector K) :
  (forall x u w d i, _f D x u w d i = x i) ->
  (forall i j, _aug_sigmas (fst st) i j = G i j) ->
  let st' := for_loop 1 n (process_step nx D control_k del_k) st in
  (forall i j, _aug_sigmas (fst st') i j = G i j) /\
  (forall i, i < nx ->
     snd st' i = (snd st i + sum_range K (fun j => wmi D * G i j) 1 n)%sc).
Proof.
  intros Hf Hst.
  pose (P := fun (k : nat) (t : SigmaBase K * vector K) =>
    (forall i j, _aug_sigmas (fst t) i j = G i j) /\
    (forall i, i < nx ->
       snd t i =
         (snd st i + sum_range K (fun j => wmi D * G i j) 1 (k - 1))%sc)).
  assert (H : P (1 + n)%nat (for_loop 1 n (process_step nx D control_k del_k) st)).
  { apply for_loop_invariant.
    - split; [exact Hst|]. intros i Hi. cbn [Nat.sub sum_range]. ring.
    - intros k t Hk [Hsig Hacc].
      assert (Hsig' : forall i j,
        _aug_sigmas (propagate_f nx D control_k del_k k (fst t)) i j = G i j).
      { intros i j. unfold propagate_f. cbn [set_aug_sigmas _aug_sigmas].
        unfold assign_col. index_cases; try apply Hsig.
        rewrite Hf. unfold col, _state_sigmas, block. rewrite Hsig.
        subst j. same_index. }
      split; [exact Hsig'|].
      intros i Hi. unfold process_step. cbn [fst snd].
      unfold assign_segment. index_cases.
      unfold vadd, vscale, col, _state_sigmas, block.
      rewrite Hsig', Nat.sub_0_r, (Hacc i Hi).
      replace (S k - 1)%nat with (S (k - 1)) by lia.
      cbn [sum_range].
      replace (1 + (k - 1))%nat with k by lia.
      change (0 + i)%nat with i. change (0 + k)%nat with k. ring. }
  destruct H as [H1 H2]. split; [exact H1|].
  intros i Hi. rewrite (H2 i Hi).
  replace (1 + n - 1)%nat with n by lia. reflexivity.
Qed.

Lemma sum_range_scale (w : K) (f : nat -> K) (lo n : nat) :
  sum_range K (fun j => w * f j)%sc lo n = (w * sum_range K f lo n)%sc.
Proof.
  induction n as [|n IH]; cbn [sum_range]; [ring|]. rewrite IH. ring.
Qed.

(** What [_process] leaves behind when the process model hands its first
    argument back: the sigma points as generated, and in the caller's state
    the centre weighted by [wm0] plus each other column weighted by [wmi]. *)
Lemma process_identity_result (state_k control_k : vector K) (del_k : K)
    (s : SigmaBase K) :
  (forall x u w d i, _f D x u w d i = x i) ->
  let res := process state_k control_k del_k s in
  let g := snd (generate state_k (covar (base s)) s) in
  (forall i j, _aug_sigmas (object res) i j = _aug_sigmas g i j) /\
  (forall i, i < nx ->
     output res i =
       (wm0 D * _aug_sigmas g i 0%nat +
        sum_range K (fun j => wmi D * _aug_sigmas g i j) 1%nat (L + L)%nat)%sc).
Proof.
  intros Hf res g. subst res. unfold _process, output, object. cbn [fst snd].
  fold g.
  set (s0 := propagate_f nx D control_k del_k 0 g).
  assert (Hs0 : forall k j, _aug_sigmas s0 k j = _aug_sigmas g k j).
  { intros k j. subst s0. unfold propagate_f. cbn [set_aug_sigmas _aug_sigmas].
    unfold assign_col. index_cases.
    rewrite Hf. unfold col, _state_sigmas, block. subst j. same_index. }
  replace (r - 1)%nat with (L + L)%nat by (unfold r; lia).
  match goal with
  | |- context [for_loop 1 ?n ?b ?st] =>
      destruct (process_loop_identity control_k del_k (_aug_sigmas g) n st Hf Hs0)
        as [Hsig Hacc]
  end.
  split; [exact Hsig|].
  intros i Hi. rewrite (Hacc i Hi). cbn [snd].
  unfold assign_segment. index_cases.
  unfold vscale, col, _state_sigmas, block.
  rewrite Hs0, Nat.sub_0_r. reflexivity.
Qed.

(** C3 (as amended): in exact arithmetic, with the identity as process
    model and mean weights such that [wm0 + 2L * wmi = 1], the weighted mean
    the process step computes ([wm0] times column 0 plus [wmi] times the sum
    of columns [1..2L] of the state sigma points) is the state part of the
    augmented vector, for every augmented vector, augmented matrix and
    spread factor. *)
Theorem C3_mean_reproduction (state_k control_k : vector K) (del_k : K)
    (s : SigmaBase K) :
  (forall x u w d i, _f D x u w d i = x i) ->
  (wm0 D + scalar_of_nat K (2 * L) * wmi D)%sc = 1%sc ->
  let res := process state_k control_k del_k s in
  let sigmas := _state_sigmas (object res) in
  vec_eq nx (output res)
    (fun i => wm0 D * sigmas i 0%nat +
              wmi D * sum_range K (fun j => sigmas i j) 1%nat (2 * L)%nat)%sc /\
  vec_eq nx (output res) (_aug_vector (object res)) /\
  vec_eq nx (output res) state_k.
Proof.
  intros Hf Hw res sigmas.
  destruct (process_identity_result state_k control_k del_k s Hf) as [Hsig Hout].
  fold res in Hsig, Hout.
  set (g := snd (generate state_k (covar (base s)) s)) in Hsig, Hout.
  assert (Hmean : vec_eq nx (output res) state_k).
  { intros i Hi. rewrite (Hout i Hi).
    rewrite sum_range_app.
    assert (HiL : i < L) by (unfold L; lia).
    set (a := _aug_vector g i).
    set (q := s_sqrt K (gamma D)).
    set (m := fun k => _aug_matrix g i k).
    rewrite (sum_range_ext (fun j => wmi D * _aug_sigmas g i j)%sc
               (fun j => wmi D * (a + q * m (j - 1)%nat))%sc).
    2:{ intros j Hj. subst g a q m.
        rewrite generate_aug_sigmas by (unfold r; lia). index_cases. }
    rewrite (sum_range_ext (fun j => wmi D * _aug_sigmas g i j)%sc
               (fun j => wmi D * (a - q * m (j - (1 + L))%nat))%sc).
    2:{ intros j Hj. subst g a q m.
        rewrite generate_aug_sigmas by (unfold r; lia). index_cases.
        same_index. }
    assert (Ha0 : _aug_sigmas g i 0 = a).
    { subst g a. rewrite generate_aug_sigmas by (unfold r; lia). reflexivity. }
    rewrite Ha0.
    transitivity
      (wm0 D * a +
       (sum_range K (fun j => wmi D * (a + q * m (j - 1)%nat)) 1 L +
        sum_range K (fun j => wmi D * (a - q * m (j - (1 + L))%nat)) (1 + L) L))%sc;
      [ring|].
    rewrite sum_range_mirror.
    replace (L + L)%nat with (2 * L)%nat by lia.
    transitivity ((wm0 D + scalar_of_nat K (2 * L) * wmi D) * a)%sc; [ring|].
    rewrite Hw.
    transitivity a; [ring|].
    subst a g. rewrite generate_aug_vector. index_cases. }
  split; [|split; [|exact Hmean]].
  - intros i Hi. rewrite (Hout i Hi). subst sigmas.
    unfold _state_sigmas, block. cbn [Nat.add].
    rewrite <- sum_range_scale.
    replace (2 * L)%nat with (L + L)%nat by lia.
    rewrite Hsig.
    rewrite (sum_range_ext (fun j => wmi D * _aug_sigmas (object res) i j)%sc
               (fun j => wmi D * _aug_sigmas g i j)%sc)
      by (intros j Hj; rewrite Hsig; reflexivity).
    reflexivity.
  - intros i Hi. rewrite (Hmean i Hi). subst res.
    destruct (process_frame LLT_compute nx nz D state_k control_k del_k s)
      as (_ & Hv & _).
    rewrite Hv, generate_aug_vector. index_cases.
Qed.

End ExactArithmetic.

(** ** The model run on the scenario filters *)

(** C1: the constructor and the generator write the three diagonal blocks of
    the augmented matrix and nothing else, so a coefficient outside them is
    whatever the storage held.  Over storage that holds 7 the blocks carry
    the three factors (1, 0.5 and 2), while coefficient (0,1), which lies
    outside the blocks, reads 7 after the constructor and still after a
    regeneration, and the sigma points built from column 1 are spread along
    it. *)
Theorem C1_off_diagonal_never_written :
  let s := Scenario.filter64 in
  let s' := snd (_generate_sigmas binary64_LLT 1 1 Scenario.ukf64
                   (Scenario.const_vector binary64 0%float)
                   (Scenario.const_matrix binary64 1%float) s) in
  (_aug_matrix s 0 0 = 1%float /\ _aug_matrix s 1 1 = 0.5%float /\
   _aug_matrix s 2 2 = 2%float) /\
  off_diagonal 1 1 0 1 /\
  _aug_matrix s 0 1 = 7%float /\
  _aug_matrix s' 0 1 = 7%float /\
  _aug_sigmas s' 0 2 = PrimFloat.mul (PrimFloat.sqrt 3) 7.
Proof.
  cbv zeta. split; [vm_compute; repeat split|].
  split; [unfold off_diagonal, L; lia|].
  vm_compute. repeat split.
Qed.

(** C2, refuted as stated: the covariance [-1] is not positive-definite and
    the factorization records [NumericalIssue], yet the constructor builds the
    object, the generator returns [true], and the state-covariance block holds
    [-1] as its factor. *)
Lemma C2_nonpositive_covariance_accepted :
  let bad := Scenario.const_matrix binary64 (-1)%float in
  let built :=
    SigmaBase_ctor binary64_LLT 1 1 (Scenario.storage binary64 0%float)
      (Scenario.const_vector binary64 0%float) bad
      (Scenario.const_matrix binary64 0.25%float)
      (Scenario.const_matrix binary64 4%float) in
  let res := _generate_sigmas binary64_LLT 1 1 Scenario.ukf64
               (Scenario.const_vector binary64 0%float) bad
               Scenario.filter64_zeroed in
  m_info (binary64_LLT 1 (triangularView_Lower bad)) = NumericalIssue /\
  _chol_covar built 0 0 = (-1)%float /\
  fst res = true /\
  _chol_covar (snd res) 0 0 = (-1)%float.
Proof. vm_compute. repeat split. Qed.

(** C6, refuted as stated: with the spread factor [-1] the generator returns
    [true], and the square root it took of [-1], a NaN, is what columns
    [1..2L] of the sigma points are made of. *)
Lemma C6_negative_gamma_accepted :
  let res := _generate_sigmas binary64_LLT 1 1 Scenario.ukf64_negative_gamma
               (Scenario.const_vector binary64 0%float)
               (Scenario.const_matrix binary64 1%float)
               Scenario.filter64_zeroed in
  PrimFloat.ltb (gamma Scenario.ukf64_negative_gamma) 0 = true /\
  fst res = true /\
  PrimFloat.is_nan (s_sqrt binary64 (gamma Scenario.ukf64_negative_gamma)) = true /\
  PrimFloat.is_nan (_aug_sigmas (snd res) 0 1) = true /\
  PrimFloat.is_nan (_aug_sigmas (snd res) 0 4) = true.
Proof. vm_compute. repeat split. Qed.

(** C3 at a concrete filter of exact arithmetic: state 5, weights -5 and 1,
    six symmetric points. *)
Lemma C3_mean_reproduction_witness :
  (forall (x u w : vector exact_Z) (d : exact_Z) (i : nat),
     _f Scenario.ukfZ x u w d i = x i) /\
  (wm0 Scenario.ukfZ + scalar_of_nat exact_Z (2 * L 1 1) * wmi Scenario.ukfZ = 1)%Z /\
  vec_eq 1
    (output (_process exact_Z_LLT 1 1 Scenario.ukfZ
               (Scenario.const_vector exact_Z 5%Z)
               (Scenario.const_vector exact_Z 0%Z) 1%Z Scenario.filterZ))
    (Scenario.const_vector exact_Z 5%Z).
Proof.
  split; [intros x u w d i; reflexivity|].
  split; [reflexivity|].
  apply (@C3_mean_reproduction exact_Z Zth exact_Z_LLT 1 1 Scenario.ukfZ
           (Scenario.const_vector exact_Z 5%Z)
           (Scenario.const_vector exact_Z 0%Z) 1%Z Scenario.filterZ
           (fun x u w d i => eq_refl) eq_refl).
Defined.


(** C5 at the binary64 filter, for the first pair of columns. *)
Lemma C5_sigma_columns_witness :
  let s' := snd (_generate_sigmas binary64_LLT 1 1 Scenario.ukf64
                   (Scenario.const_vector binary64 0%float)
                   (Scenario.const_matrix binary64 1%float) Scenario.filter64) in
  vec_eq 3 (col 1 (_aug_sigmas s'))
    (vadd (_aug_vector s')
          (@vscale binary64 (PrimFloat.sqrt 3) (col 0 (_aug_matrix s')))) /\
  vec_eq 3 (col 4 (_aug_sigmas s'))
    (vsub (_aug_vector s')
          (@vscale binary64 (PrimFloat.sqrt 3) (col 0 (_aug_matrix s')))).
Proof.
  apply (@C5_sigma_columns binary64 binary64_LLT 1 1 Scenario.ukf64
           (Scenario.const_vector binary64 0%float)
           (Scenario.const_matrix binary64 1%float) Scenario.filter64 1).
  unfold L. lia.
Defined.

(** C7 at the binary64 filter, regenerated around the state 2.5. *)
Lemma C7_augmented_vector_layout_witness :
  let a := _aug_vector
             (snd (_generate_sigmas binary64_LLT 1 1 Scenario.ukf64
                     (Scenario.const_vector binary64 2.5%float)
                     (Scenario.const_matrix binary64 1%float) Scenario.filter64)) in
  a 0 = 2.5%float /\ a 1 = 0%float /\ a 2 = 0%float.
Proof.
  destruct (@C7_augmented_vector_layout binary64 binary64_LLT 1 1 Scenario.ukf64
              (Scenario.storage binary64 7%float)
              Scenario.filter64 (Scenario.const_vector binary64 2.5%float)
              (Scenario.const_matrix binary64 1%float)
              (reach_ctor binary64_LLT 1 1 Scenario.ukf64 _ _ _ _ _))
    as (H0 & H1 & H2).
  cbv zeta. split; [apply H0; lia | split; [apply H1; lia | apply H2; unfold L; lia]].
Defined.

(** In binary64 the two algebraic properties hold up to rounding only: around
    the state 1/10 with covariance 2, columns 1 and 4 do not add up to twice
    the augmented vector, and the mean of the identity-propagated points is
    not the state; each differs from it by less than 2^-50. *)
Example binary64_rounds :
  let tenth := (1 / 10)%float in
  let s' := snd (_generate_sigmas binary64_LLT 1 1 Scenario.ukf64
                   (Scenario.const_vector binary64 tenth)
                   (Scenario.const_matrix binary64 2%float)
                   Scenario.filter64_zeroed) in
  let res := _process binary64_LLT 1 1
               (Scenario.identity_variant binary64 0%float (1 / 6)%float 3%float)
               (Scenario.const_vector binary64 tenth)
               (Scenario.const_vector binary64 0%float) 1%float
               (store_estimate (Scenario.const_vector binary64 tenth)
                  (Scenario.const_matrix binary64 2%float)
                  Scenario.filter64_zeroed) in
  let sum := PrimFloat.add (_aug_sigmas s' 0 1) (_aug_sigmas s' 0 4) in
  let twice := PrimFloat.mul 2 (_aug_vector s' 0) in
  PrimFloat.eqb sum twice = false /\
  PrimFloat.ltb (PrimFloat.abs (PrimFloat.sub sum twice)) 0x1p-50 = true /\
  PrimFloat.eqb (output res 0) tenth = false /\
  PrimFloat.ltb (PrimFloat.abs (PrimFloat.sub (output res 0) tenth)) 0x1p-50 = true.
Proof. vm_compute. repeat split. Qed.

(** C3, refuted as stated: in binary64, with the identity as process model,
    gamma = 3 and the weights -1/2 and 1/4, whose sum [wm0 + 6 wmi] is
    exactly 1, over the positive-definite covariance 2^120 the process step
    hands back half the state: 0.05 for the state 1/10.  Every symmetric
    point along the state column has absorbed the state, so the four other
    points and the centre are all that weigh. *)
Lemma C3_binary64_mean_not_reproduced :
  let D := Absorbing.ukf64 in
  let res := _process binary64_LLT 1 1 D
               (Scenario.const_vector binary64 Absorbing.tenth)
               (Scenario.const_vector binary64 0%float) 1%float
               Absorbing.filter64 in
  (forall (x u w : vector binary64) (d : binary64) (i : nat),
     _f D x u w d i = x i) /\
  PrimFloat.leb 0 (gamma D) = true /\
  s_add binary64 (wm0 D)
    (s_mul binary64 (scalar_of_nat binary64 (2 * L 1 1)) (wmi D)) = 1%float /\
  m_info (binary64_LLT 1 (triangularView_Lower (covar (base Absorbing.filter64))))
    = Success /\
  _aug_vector (object res) 0 = Absorbing.tenth /\
  output res 0 = PrimFloat.div Absorbing.tenth 2 /\
  PrimFloat.eqb (output res 0) (_aug_vector (object res) 0) = false.
Proof.
  cbv zeta. split; [intros x u w d i; reflexivity|].
  vm_compute. repeat split.
Qed.



(** * Further properties of the code *)

Lemma for_loop_snoc (S : Type) (body : nat -> S -> S) :
  forall n lo s,
    for_loop lo (Datatypes.S n) body s = body (lo + n) (for_loop lo n body s).
Proof.
  induction n as [|n IH]; intros lo s.
  - cbn [for_loop]. rewrite Nat.add_0_r. reflexivity.
  - change (for_loop lo (Datatypes.S (Datatypes.S n)) body s)
      with (for_loop (Datatypes.S lo) (Datatypes.S n) body (body lo s)).
    rewrite IH. cbn [for_loop]. rewrite Nat.add_succ_comm. reflexivity.
Qed.

Lemma for_loop_ext (S : Type) (body body' : nat -> S -> S) :
  forall n lo s,
    (forall i t, lo <= i < lo + n -> body i t = body' i t) ->
    for_loop lo n body s = for_loop lo n body' s.
Proof.
  induction n as [|n IH]; intros lo s H; cbn [for_loop]; [reflexivity|].
  rewrite (H lo s) by lia. apply IH. intros i t Hi. apply H. lia.
Qed.

Section ReferenceLLTFacts.

Variable K : scalar_ops.
Variable s_div : K -> K -> K.
Variable s_lez : K -> bool.

Lemma row_dot_ext (n i k' k : nat) (A A' : matrix K) :
  mat_eq n n A A' -> i < n -> k' < n -> k <= n ->
  row_dot i k' k A = row_dot i k' k A'.
Proof.
  intros HA Hi Hk' Hk. unfold row_dot.
  apply for_loop_ext. intros j acc Hj.
  rewrite (HA i j), (HA k' j) by lia. reflexivity.
Qed.

Lemma llt_unblocked_ext (n : nat) :
  forall todo k (A A' : matrix K),
    k + todo = n -> mat_eq n n A A' ->
    mat_eq n n (fst (llt_unblocked s_div s_lez n k todo A))
               (fst (llt_unblocked s_div s_lez n k todo A')) /\
    snd (llt_unblocked s_div s_lez n k todo A) =
      snd (llt_unblocked s_div s_lez n k todo A').
Proof.
  induction todo as [|todo IH]; intros k A A' Hk HA; cbn [llt_unblocked].
  - split; [exact HA | reflexivity].
  - assert (Hkn : k < n) by lia.
    rewrite (row_dot_ext (i := k) (k' := k) (k := k) HA) by lia.
    rewrite (HA k k Hkn Hkn).
    destruct (s_lez _); [split; [exact HA | reflexivity]|].
    apply IH; [lia|].
    intros i j Hi Hj.
    assert (H1 : forall a b, a < n -> b < n ->
      (if (a =? k) && (b =? k)
       then s_sqrt K (if k =? 0 then A' k k else s_sub K (A' k k) (row_dot k k k A'))
       else A a b) =
      (if (a =? k) && (b =? k)
       then s_sqrt K (if k =? 0 then A' k k else s_sub K (A' k k) (row_dot k k k A'))
       else A' a b)).
    { intros a b Ha Hb. rewrite (HA a b Ha Hb). reflexivity. }
    destruct ((j =? k) && (k <? i) && (i <? n)) eqn:E.
    + rewrite (H1 i k Hi Hkn). f_equal.
      destruct (k =? 0); [reflexivity|]. f_equal.
      apply (row_dot_ext (n := n)); try lia.
      intros a b Ha Hb. apply H1; assumption.
    + apply H1; assumption.
Qed.

Lemma reference_LLT_reads_extent : LLT_reads_extent (reference_LLT s_div s_lez).
Proof.
  intros n A A' HA. unfold reference_LLT. cbn [m_matrix].
  apply (llt_unblocked_ext (n := n)); [reflexivity | exact HA].
Qed.

End ReferenceLLTFacts.

(** ** The generator: what it writes and what it reads *)
Section GeneratorCoverage.

Variable K : scalar_ops.
Variable LLT_compute : nat -> matrix K -> LLT K.
Variables nx nz : nat.
Variable D : Derived K.

Local Notation "x + y" := (s_add K x y) : scalar_scope.
Local Notation "x - y" := (s_sub K x y) : scalar_scope.
Local Notation "x * y" := (s_mul K x y) : scalar_scope.
Local Abbreviation L := (L nx nz).
Local Abbreviation r := (r nx nz).
Local Abbreviation generate := (_generate_sigmas LLT_compute nx nz D).

Lemma triangularView_Lower_ext (n : nat) (A A' : matrix K) :
  mat_eq n n A A' -> mat_eq n n (triangularView_Lower A) (triangularView_Lower A').
Proof.
  intros H i j Hi Hj. unfold triangularView_Lower.
  destruct (j <=? i); [apply H; assumption | reflexivity].
Qed.

(** X1: every write of the generator stays inside its target.  The loop
    writes columns [i] and [i+L] for [i] up to [L], so at most column [2L],
    the last of the [r = 2L+1]; beyond the [L] by [r] sigma-point matrix, the
    [L] rows of the augmented vector and the state-covariance block of the
    augmented matrix nothing changes, and the observation sigma points, the
    cross covariance and the base are not written at all. *)
Theorem X1_generate_writes_confined (state_k : vector K) (covar_k : matrix K)
    (s : SigmaBase K) :
  let s' := snd (generate state_k covar_k s) in
  (forall i j, L <= i \/ r <= j -> _aug_sigmas s' i j = _aug_sigmas s i j) /\
  (forall i, L <= i -> _aug_vector s' i = _aug_vector s i) /\
  (forall i j, nx <= i \/ nx <= j -> _aug_matrix s' i j = _aug_matrix s i j) /\
  _obs_sigmas s' = _obs_sigmas s /\
  _cross_covar s' = _cross_covar s /\
  base s' = base s.
Proof.
  cbv zeta. repeat match goal with |- _ /\ _ => split end; try reflexivity.
  - intros i j H. unfold r in H.
    unfold _generate_sigmas; cbn [snd set_aug_sigmas _aug_sigmas].
    rewrite sigma_loop_spec.
    cbn [set_aug_vector set_aug_sigmas _aug_vector _aug_matrix _aug_sigmas
         assign_chol_covar set_aug_matrix base].
    destruct (Nat.ltb_spec i L) as [Hi|Hi].
    + assert (Hj : 2 * L + 1 <= j) by lia.
      replace ((1 <=? j) && (j <=? L)) with false
        by (symmetry; apply andb_false_iff; right; apply Nat.leb_gt; lia).
      replace ((L + 1 <=? j) && (j <=? L + L)) with false
        by (symmetry; apply andb_false_iff; right; apply Nat.leb_gt; lia).
      apply assign_col_outside. lia.
    + apply assign_col_outside. lia.
  - intros i Hi. rewrite generate_aug_vector. unfold L in Hi.
    index_cases; unfold L in *; lia.
  - intros i j H. apply generate_aug_matrix_frame. exact H.
Qed.

(** X2: the generator reads no stale data.  Its augmented vector, augmented
    matrix and sigma points are determined by the state and covariance it is
    given, the noise means and the augmented matrix outside the
    state-covariance block: two objects that agree on those, whatever sigma
    points, augmented vector and state factor an earlier step left in them,
    come out with the same ones. *)
Theorem X2_generate_ignores_previous_step (state_k : vector K) (covar_k : matrix K)
    (s1 s2 : SigmaBase K) :
  vec_eq nx (proc_noise (base s1)) (proc_noise (base s2)) ->
  vec_eq nz (obs_noise (base s1)) (obs_noise (base s2)) ->
  (forall i j, i < L -> j < L -> nx <= i \/ nx <= j ->
     _aug_matrix s1 i j = _aug_matrix s2 i j) ->
  let g1 := snd (generate state_k covar_k s1) in
  let g2 := snd (generate state_k covar_k s2) in
  vec_eq L (_aug_vector g1) (_aug_vector g2) /\
  mat_eq L L (_aug_matrix g1) (_aug_matrix g2) /\
  mat_eq L r (_aug_sigmas g1) (_aug_sigmas g2).
Proof.
  intros Hp Ho Hm g1 g2.
  assert (Hv : vec_eq L (_aug_vector g1) (_aug_vector g2)).
  { intros i Hi. subst g1 g2. rewrite !generate_aug_vector.
    destruct (Nat.ltb_spec i nx); [reflexivity|].
    destruct (Nat.ltb_spec i (2 * nx)); [apply Hp; lia|].
    destruct (Nat.ltb_spec i L); [apply Ho; unfold L in *; lia | lia]. }
  assert (HM : mat_eq L L (_aug_matrix g1) (_aug_matrix g2)).
  { intros i j Hi Hj. subst g1 g2. rewrite !generate_aug_matrix.
    destruct (Nat.ltb_spec i nx) as [Hi'|Hi'];
      [destruct (Nat.ltb_spec j nx) as [Hj'|Hj']|].
    - rewrite !assign_block_inside by lia. reflexivity.
    - rewrite !assign_block_outside by lia. apply Hm; [assumption..|lia].
    - rewrite !assign_block_outside by lia. apply Hm; [assumption..|lia]. }
  split; [exact Hv|]. split; [exact HM|].
  intros i j Hi Hj. subst g1 g2.
  rewrite (generate_aug_sigmas LLT_compute nx nz D state_k covar_k s1 Hi Hj).
  rewrite (generate_aug_sigmas LLT_compute nx nz D state_k covar_k s2 Hi Hj).
  cbv zeta. unfold r in Hj. rewrite (Hv i Hi).
  destruct (j =? 0); [reflexivity|].
  destruct (Nat.leb_spec j L).
  - destruct (Nat.eq_dec j 0) as [->|Hj0].
    + destruct L eqn:HL; [lia|]. rewrite (HM i (0 - 1) Hi) by lia. reflexivity.
    + rewrite (HM i (j - 1) Hi) by lia. reflexivity.
  - rewrite (HM i (j - L - 1) Hi) by lia. reflexivity.
Qed.

(** X3: the generator reads the lower triangle of the covariance only.  Two
    covariance matrices that agree on and below the diagonal give the same
    augmented matrix and the same sigma points, whatever stands above the
    diagonal: an asymmetric matrix is taken as if it were the symmetric one
    with that lower triangle. *)
Theorem X3_generate_reads_lower_triangle (state_k : vector K)
    (covar_k covar_k' : matrix K) (s : SigmaBase K) :
  LLT_reads_extent LLT_compute ->
  (forall i j, i < nx -> j <= i -> covar_k i j = covar_k' i j) ->
  let g := snd (generate state_k covar_k s) in
  let g' := snd (generate state_k covar_k' s) in
  mat_eq L L (_aug_matrix g) (_aug_matrix g') /\
  mat_eq L r (_aug_sigmas g) (_aug_sigmas g').
Proof.
  intros HLLT Hlow g g'.
  assert (Htri : mat_eq nx nx (triangularView_Lower covar_k)
                              (triangularView_Lower covar_k')).
  { intros i j Hi Hj. unfold triangularView_Lower.
    destruct (Nat.leb_spec j i); [apply Hlow; assumption | reflexivity]. }
  assert (HM : mat_eq L L (_aug_matrix g) (_aug_matrix g')).
  { intros i j Hi Hj. subst g g'. rewrite !generate_aug_matrix.
    destruct (Nat.ltb_spec i nx) as [Hi'|Hi'];
      [destruct (Nat.ltb_spec j nx) as [Hj'|Hj']|].
    - rewrite !assign_block_inside by lia.
      apply (triangularView_Lower_ext (HLLT nx _ _ Htri)); lia.
    - rewrite !assign_block_outside by lia. reflexivity.
    - rewrite !assign_block_outside by lia. reflexivity. }
  split; [exact HM|].
  assert (Hv : forall i, _aug_vector g i = _aug_vector g' i).
  { intros i. subst g g'. rewrite !generate_aug_vector. reflexivity. }
  intros i j Hi Hj. subst g g'.
  rewrite (generate_aug_sigmas LLT_compute nx nz D state_k covar_k s Hi Hj).
  rewrite (generate_aug_sigmas LLT_compute nx nz D state_k covar_k' s Hi Hj).
  cbv zeta. unfold r in Hj. rewrite (Hv i).
  destruct (j =? 0); [reflexivity|].
  destruct (Nat.leb_spec j L).
  - destruct (Nat.eq_dec j 0) as [->|Hj0].
    + destruct L eqn:HL; [lia|]. rewrite (HM i (0 - 1) Hi) by lia. reflexivity.
    + rewrite (HM i (j - 1) Hi) by lia. reflexivity.
  - rewrite (HM i (j - L - 1) Hi) by lia. reflexivity.
Qed.

End GeneratorCoverage.

(** ** The two propagators *)
Section PropagatorCoverage.

Variable K : scalar_ops.
Variable LLT_compute : nat -> matrix K -> LLT K.
Variables nx nz : nat.
Variable D : Derived K.

Local Notation "x + y" := (s_add K x y) : scalar_scope.
Local Notation "x - y" := (s_sub K x y) : scalar_scope.
Local Notation "x * y" := (s_mul K x y) : scalar_scope.
Local Abbreviation L := (L nx nz).
Local Abbreviation r := (r nx nz).
Local Abbreviation generate := (_generate_sigmas LLT_compute nx nz D).
Local Abbreviation process := (_process LLT_compute nx nz D).
Local Abbreviation observe := (_observe LLT_compute nx nz D).

Lemma r_positive : r = S (r - 1).
Proof. unfold r. lia. Qed.

(** One propagation writes one column. *)
Lemma propagate_f_other_columns control_k del_k k (s : SigmaBase K) i j :
  j <> k ->
  _aug_sigmas (propagate_f nx D control_k del_k k s) i j = _aug_sigmas s i j.
Proof.
  intros H. unfold propagate_f. cbn [set_aug_sigmas _aug_sigmas].
  apply assign_col_outside. lia.
Qed.

Lemma propagate_h_other_columns k (s : SigmaBase K) i j :
  j <> k ->
  _obs_sigmas (propagate_h nx nz D k s) i j = _obs_sigmas s i j.
Proof.
  intros H. unfold propagate_h. cbn [set_obs_sigmas _obs_sigmas].
  apply assign_col_outside. lia.
Qed.

(** The sigma-point matrix after [_process]: in the state rows each column
    is the image of the generated column, elsewhere it is as generated. *)
Lemma process_columns state_k control_k del_k s :
  f_reads_extent nx D ->
  let res := process state_k control_k del_k s in
  let g := snd (generate state_k (covar (base s)) s) in
  forall i j,
    _aug_sigmas (object res) i j =
      if (i <? nx) && (j <? r)
      then _f D (col j (_state_sigmas g)) control_k
                (col j (_proc_noise_sigmas nx g)) del_k i
      else _aug_sigmas g i j.
Proof.
  intros Hf res g. subst res. unfold _process, object. cbn [fst snd]. fold g.
  set (F := fun j i => _f D (col j (_state_sigmas g)) control_k
                          (col j (_proc_noise_sigmas nx g)) del_k i).
  pose (P := fun (k : nat) (t : SigmaBase K * vector K) => forall i j,
    _aug_sigmas (fst t) i j =
      if (i <? nx) && (j <? k) then F j i else _aug_sigmas g i j).
  match goal with
  | |- forall i j, _aug_sigmas (fst (for_loop 1 ?n ?b ?st)) i j = _ =>
      assert (H : P (1 + n)%nat (for_loop 1 n b st))
  end.
  { apply for_loop_invariant.
    - intros i j. cbn [fst]. unfold propagate_f.
      cbn [set_aug_sigmas _aug_sigmas].
      destruct (Nat.eq_dec j 0) as [->|Hj].
      + destruct (Nat.ltb_spec i nx) as [Hi|Hi].
        * rewrite assign_col_inside by lia. rewrite Nat.sub_0_r. reflexivity.
        * rewrite assign_col_outside by lia. reflexivity.
      + rewrite assign_col_outside by lia.
        replace (j <? 1) with false by (symmetry; apply Nat.ltb_ge; lia).
        rewrite andb_false_r. reflexivity.
    - intros k t Hk HP i j. unfold process_step. cbn [fst].
      destruct (Nat.eq_dec j k) as [->|Hjk].
      + unfold propagate_f. cbn [set_aug_sigmas _aug_sigmas].
        destruct (Nat.ltb_spec i nx) as [Hi|Hi].
        * rewrite assign_col_inside by lia.
          replace (k <? S k) with true by (symmetry; apply Nat.ltb_lt; lia).
          cbn [andb]. rewrite Nat.sub_0_r. unfold F.
          apply Hf; [ | | exact Hi].
          -- intros a Ha. unfold col, _state_sigmas, block. cbn [Nat.add].
             rewrite HP.
             replace (k <? k) with false by (symmetry; apply Nat.ltb_ge; lia).
             rewrite andb_false_r. reflexivity.
          -- intros a Ha. unfold col, _proc_noise_sigmas, block. cbn [Nat.add].
             rewrite HP.
             replace (nx + a <? nx) with false by (symmetry; apply Nat.ltb_ge; lia).
             reflexivity.
        * rewrite assign_col_outside by lia. rewrite HP.
          replace (i <? nx) with false by (symmetry; apply Nat.ltb_ge; lia).
          reflexivity.
      + rewrite propagate_f_other_columns by exact Hjk. rewrite HP.
        destruct (Nat.ltb_spec j k); destruct (Nat.ltb_spec j (S k));
          try lia; reflexivity. }
  intros i j. rewrite (H i j).
  replace (1 + (r - 1))%nat with r by (unfold r; lia). reflexivity.
Qed.

(** The state [_process] hands back, as a running sum over the columns of
    the final sigma-point matrix, in column order. *)
Lemma process_mean state_k control_k del_k s :
  let res := process state_k control_k del_k s in
  forall i, i < nx ->
    output res i =
      for_loop 1 (r - 1)
        (fun j acc => (acc + wmi D * _aug_sigmas (object res) i j)%sc)
        (wm0 D * _aug_sigmas (object res) i 0)%sc.
Proof.
  intros res. subst res. unfold _process, output, object. cbn [fst snd].
  set (g := snd (generate state_k (covar (base s)) s)).
  pose (P := fun (k : nat) (t : SigmaBase K * vector K) => forall i, i < nx ->
    snd t i =
      for_loop 1 (k - 1)
        (fun j acc => (acc + wmi D * _aug_sigmas (fst t) i j)%sc)
        (wm0 D * _aug_sigmas (fst t) i 0)%sc).
  match goal with
  | |- forall i, i < nx -> snd (for_loop 1 ?n ?b ?st) i = _ =>
      assert (H : P (1 + n)%nat (for_loop 1 n b st))
  end.
  { apply for_loop_invariant.
    - intros i Hi. cbn [fst snd Nat.sub for_loop].
      rewrite assign_segment_inside by lia.
      unfold vscale, col, _state_sigmas, block. rewrite Nat.sub_0_r.
      reflexivity.
    - intros k t Hk HP i Hi. unfold process_step. cbn [fst snd].
      rewrite assign_segment_inside by lia.
      unfold vadd, vscale, col, _state_sigmas, block. rewrite Nat.sub_0_r.
      cbn [Nat.add].
      replace (S k - 1)%nat with (S (k - 1)) by lia.
      rewrite for_loop_snoc.
      replace (1 + (k - 1))%nat with k by lia.
      f_equal. rewrite (HP i Hi).
      rewrite propagate_f_other_columns by lia.
      apply for_loop_ext. intros j acc Hj.
      rewrite propagate_f_other_columns by lia. reflexivity. }
  intros i Hi. rewrite (H i Hi).
  replace (1 + (r - 1) - 1)%nat with (r - 1)%nat by lia. reflexivity.
Qed.

(** X4: [_process] propagates each sigma point from its generated
    pre-image.  For every column [j] of the [r], the state sigma column
    after the step is the process model applied to the state column and the
    process-noise column as the generator left them, although the loop
    overwrites the matrix in place; the two noise views still read the
    generated noise sigma points. *)
Theorem X4_process_propagates_each_column (state_k control_k : vector K)
    (del_k : K) (s : SigmaBase K) (j : nat) :
  f_reads_extent nx D ->
  j < r ->
  let res := process state_k control_k del_k s in
  let g := snd (generate state_k (covar (base s)) s) in
  vec_eq nx (col j (_state_sigmas (object res)))
    (_f D (col j (_state_sigmas g)) control_k
          (col j (_proc_noise_sigmas nx g)) del_k) /\
  vec_eq nx (col j (_proc_noise_sigmas nx (object res)))
            (col j (_proc_noise_sigmas nx g)) /\
  vec_eq nz (col j (_obs_noise_sigmas nx (object res)))
            (col j (_obs_noise_sigmas nx g)).
Proof.
  intros Hf Hj res g.
  pose proof (process_columns state_k control_k del_k s Hf) as H.
  cbv zeta in H. fold res g in H.
  repeat split; intros i Hi;
    unfold col, _state_sigmas, _proc_noise_sigmas, _obs_noise_sigmas, block;
    rewrite H; cbn [Nat.add].
  - replace (i <? nx) with true by (symmetry; apply Nat.ltb_lt; lia).
    replace (j <? r) with true by (symmetry; apply Nat.ltb_lt; lia).
    reflexivity.
  - replace (nx + i <? nx) with false by (symmetry; apply Nat.ltb_ge; lia).
    reflexivity.
  - replace (2 * nx + i <? nx) with false by (symmetry; apply Nat.ltb_ge; lia).
    reflexivity.
Qed.

(** X5: the state [_process] hands back is the weighted sum of the state
    sigma points it leaves in the object: [wm0] times column 0, then [wmi]
    times each of the columns [1..2L] added in column order.  No law of
    arithmetic is used, so in binary64 the two agree bit for bit. *)
Theorem X5_process_mean_matches_sigmas (state_k control_k : vector K)
    (del_k : K) (s : SigmaBase K) :
  let res := process state_k control_k del_k s in
  let sigmas := _state_sigmas (object res) in
  vec_eq nx (output res)
    (fun i => for_loop 1 (2 * L)
                (fun j acc => (acc + wmi D * sigmas i j)%sc)
                (wm0 D * sigmas i 0)%sc).
Proof.
  intros res sigmas i Hi. subst sigmas res.
  rewrite (process_mean state_k control_k del_k s Hi).
  replace (r - 1)%nat with (2 * L)%nat by (unfold r; lia).
  reflexivity.
Qed.

End PropagatorCoverage.

Section ObserveCoverage.

Variable K : scalar_ops.
Variable LLT_compute : nat -> matrix K -> LLT K.
Variables nx nz : nat.
Variable D : Derived K.

Local Notation "x + y" := (s_add K x y) : scalar_scope.
Local Notation "x - y" := (s_sub K x y) : scalar_scope.
Local Notation "x * y" := (s_mul K x y) : scalar_scope.
Local Abbreviation L := (L nx nz).
Local Abbreviation r := (r nx nz).
Local Abbreviation generate := (_generate_sigmas LLT_compute nx nz D).
Local Abbreviation observe := (_observe LLT_compute nx nz D).

(** The object after [_observe]: the sigma points as regenerated, and each
    observation sigma column the image of the regenerated column. *)
Lemma observe_columns observation_k s :
  h_reads_extent nx nz D ->
  let res := observe observation_k s in
  let g := snd (generate (state (base s)) (covar (base s)) s) in
  _aug_sigmas (object res) = _aug_sigmas g /\
  forall i j,
    _obs_sigmas (object res) i j =
      if (i <? nz) && (j <? r)
      then _h D (col j (_state_sigmas g)) (col j (_obs_sigmas s))
                (col j (_obs_noise_sigmas nx g)) i
      else _obs_sigmas s i j.
Proof.
  intros Hh res g. subst res. unfold _observe, object. cbn [fst snd]. fold g.
  set (H := fun j i => _h D (col j (_state_sigmas g)) (col j (_obs_sigmas s))
                          (col j (_obs_noise_sigmas nx g)) i).
  pose (P := fun (k : nat) (t : SigmaBase K * vector K) =>
    _aug_sigmas (fst t) = _aug_sigmas g /\
    forall i j,
      _obs_sigmas (fst t) i j =
        if (i <? nz) && (j <? k) then H j i else _obs_sigmas s i j).
  match goal with
  | |- _aug_sigmas (fst (for_loop 1 ?n ?b ?st)) = _ /\ _ =>
      assert (HP : P (1 + n)%nat (for_loop 1 n b st))
  end.
  { apply for_loop_invariant.
    - split; [reflexivity|]. intros i j. cbn [fst]. unfold propagate_h.
      cbn [set_obs_sigmas _obs_sigmas].
      destruct (Nat.eq_dec j 0) as [->|Hj].
      + destruct (Nat.ltb_spec i nz) as [Hi|Hi].
        * rewrite assign_col_inside by lia. rewrite Nat.sub_0_r. reflexivity.
        * rewrite assign_col_outside by lia. reflexivity.
      + rewrite assign_col_outside by lia.
        replace (j <? 1) with false by (symmetry; apply Nat.ltb_ge; lia).
        rewrite andb_false_r. reflexivity.
    - intros k t Hk [Hsig Hobs]. unfold observe_step.
      split; [exact Hsig|]. intros i j. cbn [fst].
      destruct (Nat.eq_dec j k) as [->|Hjk].
      + unfold propagate_h. cbn [set_obs_sigmas _obs_sigmas].
        destruct (Nat.ltb_spec i nz) as [Hi|Hi].
        * rewrite assign_col_inside by lia.
          replace (k <? S k) with true by (symmetry; apply Nat.ltb_lt; lia).
          cbn [andb]. rewrite Nat.sub_0_r. unfold H.
          unfold _state_sigmas, _obs_noise_sigmas. rewrite Hsig.
          apply Hh; [ | | | exact Hi].
          -- intros a Ha. reflexivity.
          -- intros a Ha. unfold col. rewrite Hobs.
             replace (k <? k) with false by (symmetry; apply Nat.ltb_ge; lia).
             rewrite andb_false_r. reflexivity.
          -- intros a Ha. reflexivity.
        * rewrite assign_col_outside by lia. rewrite Hobs.
          replace (i <? nz) with false by (symmetry; apply Nat.ltb_ge; lia).
          reflexivity.
      + rewrite propagate_h_other_columns by exact Hjk. rewrite Hobs.
        destruct (Nat.ltb_spec j k); destruct (Nat.ltb_spec j (S k));
          try lia; reflexivity. }
  destruct HP as [Hsig Hobs]. split; [exact Hsig|].
  intros i j. rewrite (Hobs i j).
  replace (1 + (r - 1))%nat with r by (unfold r; lia). reflexivity.
Qed.

(** The observation [_observe] hands back, as a running sum over the columns
    of the final observation sigma points, in column order. *)
Lemma observe_mean observation_k s :
  let res := observe observation_k s in
  forall i, i < nz ->
    output res i =
      for_loop 1 (r - 1)
        (fun j acc => (acc + wmi D * _obs_sigmas (object res) i j)%sc)
        (wm0 D * _obs_sigmas (object res) i 0)%sc.
Proof.
  intros res. subst res. unfold _observe, output, object. cbn [fst snd].
  set (g := snd (generate (state (base s)) (covar (base s)) s)).
  pose (P := fun (k : nat) (t : SigmaBase K * vector K) => forall i, i < nz ->
    snd t i =
      for_loop 1 (k - 1)
        (fun j acc => (acc + wmi D * _obs_sigmas (fst t) i j)%sc)
        (wm0 D * _obs_sigmas (fst t) i 0)%sc).
  match goal with
  | |- forall i, i < nz -> snd (for_loop 1 ?n ?b ?st) i = _ =>
      assert (H : P (1 + n)%nat (for_loop 1 n b st))
  end.
  { apply for_loop_invariant.
    - intros i Hi. cbn [fst snd Nat.sub for_loop].
      rewrite assign_segment_inside by lia.
      unfold vscale, col. rewrite Nat.sub_0_r. reflexivity.
    - intros k t Hk HP i Hi. unfold observe_step. cbn [fst snd].
      rewrite assign_segment_inside by lia.
      unfold vadd, vscale, col. rewrite Nat.sub_0_r.
      replace (S k - 1)%nat with (S (k - 1)) by lia.
      rewrite for_loop_snoc.
      replace (1 + (k - 1))%nat with k by lia.
      f_equal. rewrite (HP i Hi).
      rewrite propagate_h_other_columns by lia.
      apply for_loop_ext. intros j acc Hj.
      rewrite propagate_h_other_columns by lia. reflexivity. }
  intros i Hi. rewrite (H i Hi).
  replace (1 + (r - 1) - 1)%nat with (r - 1)%nat by lia. reflexivity.
Qed.

(** X6: [_observe] regenerates the sigma points from the state and
    covariance stored in the base and maps each through the observation
    model.  For every column [j] of the [r], the observation sigma column
    after the step is the model applied to the regenerated state column and
    observation-noise column, and the augmented sigma points are left as
    regenerated: the observation step propagates nothing in place. *)
Theorem X6_observe_propagates_each_column (observation_k : vector K)
    (s : SigmaBase K) (j : nat) :
  h_reads_extent nx nz D ->
  j < r ->
  let res := observe observation_k s in
  let g := snd (generate (state (base s)) (covar (base s)) s) in
  vec_eq nz (col j (_obs_sigmas (object res)))
    (_h D (col j (_state_sigmas g)) (col j (_obs_sigmas s))
          (col j (_obs_noise_sigmas nx g))) /\
  _aug_sigmas (object res) = _aug_sigmas g.
Proof.
  intros Hh Hj res g.
  destruct (observe_columns observation_k s Hh) as [Hsig Hobs].
  fold res g in Hsig, Hobs.
  split; [|exact Hsig].
  intros i Hi. unfold col at 1. rewrite Hobs.
  replace (i <? nz) with true by (symmetry; apply Nat.ltb_lt; lia).
  replace (j <? r) with true by (symmetry; apply Nat.ltb_lt; lia).
  reflexivity.
Qed.

(** X7: the observation [_observe] hands back is the weighted sum of the
    observation sigma points it leaves in the object: [wm0] times column 0,
    then [wmi] times each of the columns [1..2L] added in column order, with
    no law of arithmetic used. *)
Theorem X7_observe_mean_matches_sigmas (observation_k : vector K)
    (s : SigmaBase K) :
  let res := observe observation_k s in
  let sigmas := _obs_sigmas (object res) in
  vec_eq nz (output res)
    (fun i => for_loop 1 (2 * L)
                (fun j acc => (acc + wmi D * sigmas i j)%sc)
                (wm0 D * sigmas i 0)%sc).
Proof.
  intros res sigmas i Hi. subst sigmas res.
  rewrite (observe_mean observation_k s Hi).
  replace (r - 1)%nat with (2 * L)%nat by (unfold r; lia).
  reflexivity.
Qed.

End ObserveCoverage.

(** ** Exact arithmetic: moments of the sigma points and additive models *)
Section ExactCoverage.

Variable K : scalar_ops.
Hypothesis K_ring :
  ring_theory (s_zero K) (s_one K) (s_add K) (s_mul K) (s_sub K) (s_opp K) eq.
Add Ring K_ring_coverage : K_ring.

Variable LLT_compute : nat -> matrix K -> LLT K.
Variables nx nz : nat.
Variable D : Derived K.

Local Notation "x + y" := (s_add K x y) : scalar_scope.
Local Notation "x - y" := (s_sub K x y) : scalar_scope.
Local Notation "x * y" := (s_mul K x y) : scalar_scope.
Local Notation "0" := (s_zero K) : scalar_scope.
Local Notation "1" := (s_one K) : scalar_scope.
Local Abbreviation L := (L nx nz).
Local Abbreviation r := (r nx nz).
Local Abbreviation generate := (_generate_sigmas LLT_compute nx nz D).
Local Abbreviation process := (_process LLT_compute nx nz D).
Local Abbreviation observe := (_observe LLT_compute nx nz D).

Lemma for_loop_sum (f : nat -> K) (init : K) (lo n : nat) :
  for_loop lo n (fun j acc => (acc + f j)%sc) init =
    (init + sum_range K f lo n)%sc.
Proof.
  induction n as [|n IH].
  - cbn [for_loop sum_range]. ring.
  - rewrite for_loop_snoc, IH. cbn [sum_range]. ring.
Qed.

Lemma sum_range_add (f g : nat -> K) (lo n : nat) :
  sum_range K (fun j => f j + g j)%sc lo n =
    (sum_range K f lo n + sum_range K g lo n)%sc.
Proof.
  induction n as [|n IH]; cbn [sum_range]; [ring|]. rewrite IH. ring.
Qed.

Lemma sum_range_shift (f : nat -> K) (lo n : nat) :
  sum_range K (fun j => f (j - lo)%nat) lo n = sum_range K f 0 n.
Proof.
  induction n as [|n IH]; cbn [sum_range]; [reflexivity|].
  rewrite IH. replace (lo + n - lo)%nat with n by lia. reflexivity.
Qed.

(** One row of the generated sigma points, summed over the [2L] symmetric
    columns with a common weight. *)
Lemma sigma_row_sum (state_k : vector K) (covar_k : matrix K) (s : SigmaBase K)
    (w : K) (i : nat) :
  i < L ->
  let g := snd (generate state_k covar_k s) in
  sum_range K (fun j => w * _aug_sigmas g i j)%sc 1 (L + L) =
    (scalar_of_nat K (L + L) * (w * _aug_vector g i))%sc.
Proof.
  intros Hi g.
  rewrite (sum_range_app K K_ring).
  set (a := _aug_vector g i).
  set (q := s_sqrt K (gamma D)).
  set (m := fun k => _aug_matrix g i k).
  rewrite (sum_range_ext K (fun j => w * _aug_sigmas g i j)%sc
             (fun j => w * (a + q * m (j - 1)%nat))%sc).
  2:{ intros j Hj. subst g a q m.
      rewrite generate_aug_sigmas by (unfold r; lia). index_cases. }
  rewrite (sum_range_ext K (fun j => w * _aug_sigmas g i j)%sc
             (fun j => w * (a - q * m (j - (1 + L))%nat))%sc).
  2:{ intros j Hj. subst g a q m.
      rewrite generate_aug_sigmas by (unfold r; lia). index_cases.
      same_index. }
  apply (sum_range_mirror K K_ring).
Qed.

(** X8: under an additive process model, [f(x,u,w,dt) = x + w], the state
    [_process] hands back is the sum of the two mean weights, [wm0 + 2L wmi],
    times the state plus the process-noise mean, whatever the covariance,
    the spread factor and the augmented matrix.  The core never checks that
    the weights sum to one: when they do not, the predicted mean is scaled
    by their sum. *)
Theorem X8_process_additive_model (state_k control_k : vector K) (del_k : K)
    (s : SigmaBase K) :
  (forall x u w d i, _f D x u w d i = (x i + w i)%sc) ->
  let res := process state_k control_k del_k s in
  vec_eq nx (output res)
    (fun i => (wm0 D + scalar_of_nat K (2 * L) * wmi D) *
              (state_k i + proc_noise (base s) i))%sc.
Proof.
  intros Hadd res i Hi.
  assert (Hext : f_reads_extent nx D).
  { intros x x' u w w' d Hx Hw k Hk. rewrite !Hadd, (Hx k Hk), (Hw k Hk).
    reflexivity. }
  pose proof (process_columns LLT_compute nz state_k control_k del_k s Hext) as Hcol.
  cbv zeta in Hcol. fold res in Hcol.
  set (g := snd (generate state_k (covar (base s)) s)) in Hcol.
  assert (Hrow : forall j, j < r ->
    _aug_sigmas (object res) i j =
      (_aug_sigmas g i j + _aug_sigmas g (nx + i)%nat j)%sc).
  { intros j Hj. rewrite Hcol.
    replace (i <? nx) with true by (symmetry; apply Nat.ltb_lt; lia).
    replace (j <? r) with true by (symmetry; apply Nat.ltb_lt; lia).
    cbn [andb]. rewrite Hadd. reflexivity. }
  subst res. rewrite (process_mean LLT_compute nz D state_k control_k del_k s Hi).
  rewrite (for_loop_ext
    (fun j acc => acc + wmi D *
       _aug_sigmas (object (process state_k control_k del_k s)) i j)%sc
    (fun j acc => acc + wmi D *
       (_aug_sigmas g i j + _aug_sigmas g (nx + i)%nat j))%sc)
    by (intros j acc Hj; rewrite Hrow by (unfold r in *; lia); reflexivity).
  rewrite Hrow by (unfold r; lia).
  rewrite for_loop_sum.
  replace (r - 1)%nat with (L + L)%nat by (unfold r; lia).
  rewrite (sum_range_ext K
    (fun j => wmi D * (_aug_sigmas g i j + _aug_sigmas g (nx + i)%nat j))%sc
    (fun j => wmi D * _aug_sigmas g i j + wmi D * _aug_sigmas g (nx + i)%nat j)%sc)
    by (intros j Hj; ring).
  rewrite (sum_range_add
    (fun j => wmi D * _aug_sigmas g i j)%sc
    (fun j => wmi D * _aug_sigmas g (nx + i)%nat j)%sc).
  assert (HiL : i < L) by (unfold L; lia).
  assert (HiL' : nx + i < L) by (unfold L; lia).
  subst g.
  rewrite (sigma_row_sum state_k (covar (base s)) s (wmi D) HiL).
  rewrite (sigma_row_sum state_k (covar (base s)) s (wmi D) HiL').
  rewrite !generate_aug_sigmas by (unfold r; lia). cbn [Nat.eqb].
  rewrite !generate_aug_vector.
  replace (i <? nx) with true by (symmetry; apply Nat.ltb_lt; lia).
  replace (nx + i <? nx) with false by (symmetry; apply Nat.ltb_ge; lia).
  replace (nx + i <? 2 * nx) with true by (symmetry; apply Nat.ltb_lt; lia).
  replace (nx + i - nx)%nat with i by lia.
  replace (2 * L)%nat with (L + L)%nat by lia.
  ring.
Qed.

(** X9: under an additive observation model that observes the first [nz]
    state components, [h(x,w) = x + w], the observation [_observe] hands
    back is [wm0 + 2L wmi] times those components of the state stored in
    the base plus the observation-noise mean. *)
Theorem X9_observe_additive_model (observation_k : vector K) (s : SigmaBase K) :
  nz <= nx ->
  (forall x o w i, _h D x o w i = (x i + w i)%sc) ->
  let res := observe observation_k s in
  vec_eq nz (output res)
    (fun i => (wm0 D + scalar_of_nat K (2 * L) * wmi D) *
              (state (base s) i + obs_noise (base s) i))%sc.
Proof.
  intros Hnz Hadd res i Hi.
  assert (Hext : h_reads_extent nx nz D).
  { intros x x' o o' w w' Hx Ho Hw k Hk.
    rewrite !Hadd, (Hx k) by lia. rewrite (Hw k Hk). reflexivity. }
  destruct (observe_columns LLT_compute observation_k s Hext) as [_ Hcol].
  fold res in Hcol.
  set (g := snd (generate (state (base s)) (covar (base s)) s)) in Hcol.
  assert (Hrow : forall j, j < r ->
    _obs_sigmas (object res) i j =
      (_aug_sigmas g i j + _aug_sigmas g (2 * nx + i)%nat j)%sc).
  { intros j Hj. rewrite Hcol.
    replace (i <? nz) with true by (symmetry; apply Nat.ltb_lt; lia).
    replace (j <? r) with true by (symmetry; apply Nat.ltb_lt; lia).
    cbn [andb]. rewrite Hadd. reflexivity. }
  subst res. rewrite (observe_mean LLT_compute nx D observation_k s Hi).
  rewrite (for_loop_ext
    (fun j acc => acc + wmi D *
       _obs_sigmas (object (observe observation_k s)) i j)%sc
    (fun j acc => acc + wmi D *
       (_aug_sigmas g i j + _aug_sigmas g (2 * nx + i)%nat j))%sc)
    by (intros j acc Hj; rewrite Hrow by (unfold r in *; lia); reflexivity).
  rewrite Hrow by (unfold r; lia).
  rewrite for_loop_sum.
  replace (r - 1)%nat with (L + L)%nat by (unfold r; lia).
  rewrite (sum_range_ext K
    (fun j => wmi D * (_aug_sigmas g i j + _aug_sigmas g (2 * nx + i)%nat j))%sc
    (fun j => wmi D * _aug_sigmas g i j +
              wmi D * _aug_sigmas g (2 * nx + i)%nat j)%sc)
    by (intros j Hj; ring).
  rewrite (sum_range_add
    (fun j => wmi D * _aug_sigmas g i j)%sc
    (fun j => wmi D * _aug_sigmas g (2 * nx + i)%nat j)%sc).
  assert (HiL : i < L) by (unfold L; lia).
  assert (HiL' : 2 * nx + i < L) by (unfold L; lia).
  subst g.
  rewrite (sigma_row_sum (state (base s)) (covar (base s)) s (wmi D) HiL).
  rewrite (sigma_row_sum (state (base s)) (covar (base s)) s (wmi D) HiL').
  rewrite !generate_aug_sigmas by (unfold r; lia). cbn [Nat.eqb].
  rewrite !generate_aug_vector.
  replace (i <? nx) with true by (symmetry; apply Nat.ltb_lt; lia).
  replace (2 * nx + i <? nx) with false by (symmetry; apply Nat.ltb_ge; lia).
  replace (2 * nx + i <? 2 * nx) with false by (symmetry; apply Nat.ltb_ge; lia).
  replace (2 * nx + i <? L) with true by (symmetry; apply Nat.ltb_lt; lia).
  replace (2 * nx + i - 2 * nx)%nat with i by lia.
  replace (2 * L)%nat with (L + L)%nat by lia.
  ring.
Qed.

(** X10: the second moment of the generated sigma points about the
    augmented vector.  For rows [p] and [q], the products of the deviations
    of the columns [1..2L] sum to twice [sqrt(gamma)^2] times entry [(p,q)]
    of the augmented matrix times its transpose: with the factor of a
    covariance in the matrix, the sigma points carry [2 gamma] times that
    covariance. *)
Theorem X10_sigma_second_moment (state_k : vector K) (covar_k : matrix K)
    (s : SigmaBase K) (p q : nat) :
  p < L -> q < L ->
  let g := snd (generate state_k covar_k s) in
  let sqrt_gamma := s_sqrt K (gamma D) in
  sum_range K
    (fun j => (_aug_sigmas g p j - _aug_vector g p) *
              (_aug_sigmas g q j - _aug_vector g q))%sc 1 (2 * L) =
  ((1 + 1) * ((sqrt_gamma * sqrt_gamma) *
     sum_range K (fun k => _aug_matrix g p k * _aug_matrix g q k)%sc 0 L))%sc.
Proof.
  intros Hp Hq g sqrt_gamma.
  replace (2 * L)%nat with (L + L)%nat by lia.
  rewrite (sum_range_app K K_ring).
  set (M := _aug_matrix g).
  rewrite (sum_range_ext K
    (fun j => (_aug_sigmas g p j - _aug_vector g p) *
              (_aug_sigmas g q j - _aug_vector g q))%sc
    (fun j => (sqrt_gamma * sqrt_gamma) *
              (fun k => M p k * M q k) (j - 1)%nat)%sc).
  2:{ intros j Hj. subst g sqrt_gamma M.
      rewrite !generate_aug_sigmas by (unfold r; lia). index_cases. ring. }
  rewrite (sum_range_ext K
    (fun j => (_aug_sigmas g p j - _aug_vector g p) *
              (_aug_sigmas g q j - _aug_vector g q))%sc
    (fun j => (sqrt_gamma * sqrt_gamma) *
              (fun k => M p k * M q k) (j - (1 + L))%nat)%sc).
  2:{ intros j Hj. subst g sqrt_gamma M.
      rewrite !generate_aug_sigmas by (unfold r; lia). index_cases.
      replace (j - L - 1)%nat with (j - (1 + L))%nat by lia. ring. }
  rewrite !(sum_range_scale K K_ring).
  rewrite (sum_range_shift (fun k => M p k * M q k)%sc 1 L).
  rewrite (sum_range_shift (fun k => M p k * M q k)%sc (1 + L) L).
  ring.
Qed.

(** X11: with a spread factor whose square root is zero, the generator
    collapses every sigma point onto the centre: each of the [r] columns is
    the augmented vector. *)
Theorem X11_zero_spread_collapses (state_k : vector K) (covar_k : matrix K)
    (s : SigmaBase K) (j : nat) :
  s_sqrt K (gamma D) = 0%sc ->
  j < r ->
  let g := snd (generate state_k covar_k s) in
  vec_eq L (col j (_aug_sigmas g)) (_aug_vector g).
Proof.
  intros Hzero Hj g i Hi. subst g. unfold col.
  rewrite generate_aug_sigmas by assumption. cbv zeta. rewrite Hzero.
  destruct (j =? 0); [reflexivity|].
  destruct (j <=? L); ring.
Qed.

(** X12: over an augmented matrix that is zero outside its three diagonal
    blocks, a sigma point leaves the centre in the rows of its own block
    only.  For a column [j] in [1..L] and a row [i] such that [(i, j-1)]
    lies outside the blocks, columns [j] and [j+L] read the augmented vector
    in row [i]: the noise columns do not move the state rows, and the state
    columns do not move the noise rows. *)
Theorem X12_block_diagonal_sigmas (state_k : vector K) (covar_k : matrix K)
    (s : SigmaBase K) (i j : nat) :
  (forall a b, off_diagonal nx nz a b -> _aug_matrix s a b = 0%sc) ->
  1 <= j <= L ->
  off_diagonal nx nz i (j - 1) ->
  let g := snd (generate state_k covar_k s) in
  _aug_sigmas g i j = _aug_vector g i /\
  _aug_sigmas g i (j + L) = _aug_vector g i.
Proof.
  intros Hzero Hj Hoff g. subst g.
  assert (Hi : i < L) by (destruct Hoff as (Hi & _); exact Hi).
  assert (HM : _aug_matrix (snd (generate state_k covar_k s)) i (j - 1) = 0%sc).
  { rewrite generate_aug_matrix_frame.
    - apply Hzero. exact Hoff.
    - destruct Hoff as (_ & _ & H). lia. }
  split; rewrite generate_aug_sigmas by (unfold r; lia); cbv zeta.
  - replace (j =? 0) with false by (symmetry; apply Nat.eqb_neq; lia).
    replace (j <=? L) with true by (symmetry; apply Nat.leb_le; lia).
    rewrite HM. ring.
  - replace (j + L =? 0) with false by (symmetry; apply Nat.eqb_neq; lia).
    replace (j + L <=? L) with false by (symmetry; apply Nat.leb_gt; lia).
    replace (j + L - L - 1)%nat with (j - 1)%nat by lia.
    rewrite HM. ring.
Qed.

End ExactCoverage.

(** ** The whole life of an object *)
Section LifetimeCoverage.

Variable K : scalar_ops.
Variable LLT_compute : nat -> matrix K -> LLT K.
Variables nx nz : nat.
Variable D : Derived K.

(** A sequence of calls writes the augmented matrix inside its
    state-covariance block at most. *)
Lemma run_aug_matrix_frame (ops : list (operation K)) :
  forall (s : SigmaBase K) (i j : nat),
    nx <= i \/ nx <= j ->
    _aug_matrix (run LLT_compute nx nz D ops s) i j = _aug_matrix s i j.
Proof.
  induction ops as [|o ops IH]; intros s i j Hb; cbn [run]; [reflexivity|].
  rewrite IH by exact Hb.
  destruct o; cbn [perform].
  - reflexivity.
  - apply generate_aug_matrix_frame. exact Hb.
  - apply process_aug_matrix_frame. exact Hb.
  - unfold _process_covar, object; cbn [snd].
    apply assign_chol_covar_frame. exact Hb.
  - apply observe_aug_matrix_frame. exact Hb.
  - reflexivity.
  - reflexivity.
  - unfold _update_covar, object; cbn [snd].
    apply assign_chol_covar_frame. exact Hb.
Qed.

(** X13: the two noise factors are those of the construction for the whole
    life of the object.  After the constructor and any sequence of calls of
    the generator and the six operations, in any order, with any arguments
    and any hooks, the process-noise block holds [matrixL()] of the
    factorization of the process-noise covariance the constructor was given,
    and the observation-noise block that of the observation-noise
    covariance it was given: no later step refreshes or disturbs them. *)
Theorem X13_noise_factors_for_life (ops : list (operation K))
    (mem : SigmaBase K) (state0 : vector K)
    (covar0 proc_covar0 obs_covar0 : matrix K) :
  let s := run LLT_compute nx nz D ops
             (SigmaBase_ctor LLT_compute nx nz mem state0 covar0
                             proc_covar0 obs_covar0) in
  mat_eq nx nx (_chol_proc_covar nx s)
    (matrixL (LLT_compute nx (triangularView_Lower proc_covar0))) /\
  mat_eq nz nz (_chol_obs_covar nx s)
    (matrixL (LLT_compute nz (triangularView_Lower obs_covar0))).
Proof.
  cbv zeta.
  destruct (ctor_blocks LLT_compute nx nz mem state0 covar0 proc_covar0 obs_covar0)
    as (_ & Hp & Ho).
  split; intros i j Hi Hj; unfold _chol_proc_covar, _chol_obs_covar, block;
    rewrite run_aug_matrix_frame by lia.
  - apply Hp; assumption.
  - apply Ho; assumption.
Qed.

(** X14: an object constructed over zeroed storage keeps its augmented
    matrix block diagonal for life.  If the storage is zero outside the
    three diagonal blocks when the constructor runs, so is the augmented
    matrix at every state reachable through the generator and the six
    operations: the code relies on the storage for these zeros, and never
    spoils them. *)
Theorem X14_zeroed_storage_stays_block_diagonal (mem s : SigmaBase K)
    (i j : nat) :
  (forall a b, off_diagonal nx nz a b -> _aug_matrix mem a b = s_zero K) ->
  reachable LLT_compute nx nz D mem s ->
  off_diagonal nx nz i j ->
  _aug_matrix s i j = s_zero K.
Proof.
  intros Hmem Hs Hoff.
  rewrite (reachable_off_diagonal Hs Hoff). apply Hmem. exact Hoff.
Qed.

End LifetimeCoverage.

(** ** The further properties at concrete filters *)

(** X2 at the binary64 filter: regenerating over the object a process step
    left behind gives what regenerating over the fresh object gives. *)
Lemma X2_generate_ignores_previous_step_witness :
  let s1 := Scenario.filter64 in
  let s2 := object (_process binary64_LLT 1 1 Scenario.ukf64
                      (Scenario.const_vector binary64 0%float)
                      (Scenario.const_vector binary64 0%float) 1%float
                      Scenario.filter64) in
  let g1 := snd (_generate_sigmas binary64_LLT 1 1 Scenario.ukf64
                   (Scenario.const_vector binary64 2.5%float)
                   (Scenario.const_matrix binary64 4%float) s1) in
  let g2 := snd (_generate_sigmas binary64_LLT 1 1 Scenario.ukf64
                   (Scenario.const_vector binary64 2.5%float)
                   (Scenario.const_matrix binary64 4%float) s2) in
  vec_eq (L 1 1) (_aug_vector g1) (_aug_vector g2) /\
  mat_eq (L 1 1) (L 1 1) (_aug_matrix g1) (_aug_matrix g2) /\
  mat_eq (L 1 1) (r 1 1) (_aug_sigmas g1) (_aug_sigmas g2).
Proof.
  cbv zeta.
  apply (@X2_generate_ignores_previous_step binary64 binary64_LLT 1 1
           Scenario.ukf64).
  - intros i Hi. vm_compute. reflexivity.
  - intros i Hi. vm_compute. reflexivity.
  - intros i j Hi Hj _. unfold L in Hi, Hj.
    destruct i as [|[|[|i]]]; [| | |lia];
      (destruct j as [|[|[|j]]]; [| | |lia]); vm_compute; reflexivity.
Defined.

(** X3 at a binary64 filter with two state dimensions: the covariance with
    rows (4, 1) and (1, 4) and the matrix with rows (4, 9) and (1, 4), which
    differ above the diagonal, give the same augmented matrix and the same
    sigma points. *)
Lemma X3_generate_reads_lower_triangle_witness :
  let g := snd (_generate_sigmas binary64_LLT 2 1 Scenario.ukf64
                  (Scenario.const_vector binary64 0%float)
                  Coverage.covar2 Coverage.filter64_nx2) in
  let g' := snd (_generate_sigmas binary64_LLT 2 1 Scenario.ukf64
                   (Scenario.const_vector binary64 0%float)
                   Coverage.covar2_asymmetric Coverage.filter64_nx2) in
  PrimFloat.eqb (Coverage.covar2 0 1) (Coverage.covar2_asymmetric 0 1) = false /\
  mat_eq (L 2 1) (L 2 1) (_aug_matrix g) (_aug_matrix g') /\
  mat_eq (L 2 1) (r 2 1) (_aug_sigmas g) (_aug_sigmas g').
Proof.
  cbv zeta. split; [vm_compute; reflexivity|].
  apply (@X3_generate_reads_lower_triangle binary64 binary64_LLT 2 1
           Scenario.ukf64).
  - exact (@reference_LLT_reads_extent binary64 PrimFloat.div
             (fun x => PrimFloat.leb x 0%float)).
  - intros i j Hi Hj. unfold Coverage.covar2_asymmetric.
    destruct (Nat.leb_spec j i); [reflexivity | lia].
Defined.

(** The additive models of the scenario read their arguments within their
    extents. *)
Lemma variant_f_reads_extent (K : scalar_ops) (w0 wi g : K) (nx : nat) :
  f_reads_extent nx (Scenario.variant K w0 wi g).
Proof.
  intros x x' u w w' d Hx Hw i Hi. cbn [_f Scenario.variant]. unfold vadd.
  rewrite (Hx i Hi), (Hw i Hi). reflexivity.
Qed.

Lemma variant_h_reads_extent (K : scalar_ops) (w0 wi g : K) (n : nat) :
  h_reads_extent n n (Scenario.variant K w0 wi g).
Proof.
  intros x x' o o' w w' Hx Ho Hw i Hi. cbn [_h Scenario.variant]. unfold vadd.
  rewrite (Hx i Hi), (Hw i Hi). reflexivity.
Qed.

(** X4 at the binary64 filter, for column 3. *)
Lemma X4_process_propagates_each_column_witness :
  let res := _process binary64_LLT 1 1 Scenario.ukf64
               (Scenario.const_vector binary64 0%float)
               (Scenario.const_vector binary64 0%float) 1%float
               Scenario.filter64 in
  let g := snd (_generate_sigmas binary64_LLT 1 1 Scenario.ukf64
                  (Scenario.const_vector binary64 0%float)
                  (covar (base Scenario.filter64)) Scenario.filter64) in
  vec_eq 1 (col 3 (_state_sigmas (object res)))
    (_f Scenario.ukf64 (col 3 (_state_sigmas g))
        (Scenario.const_vector binary64 0%float)
        (col 3 (_proc_noise_sigmas 1 g)) 1%float) /\
  vec_eq 1 (col 3 (_proc_noise_sigmas 1 (object res)))
           (col 3 (_proc_noise_sigmas 1 g)) /\
  vec_eq 1 (col 3 (_obs_noise_sigmas 1 (object res)))
           (col 3 (_obs_noise_sigmas 1 g)).
Proof.
  cbv zeta.
  apply (@X4_process_propagates_each_column binary64 binary64_LLT 1 1
           Scenario.ukf64).
  - apply variant_f_reads_extent.
  - unfold r, L. lia.
Defined.

(** X6 at the binary64 filter, for column 3. *)
Lemma X6_observe_propagates_each_column_witness :
  let s := Scenario.filter64 in
  let res := _observe binary64_LLT 1 1 Scenario.ukf64
               (Scenario.const_vector binary64 0%float) s in
  let g := snd (_generate_sigmas binary64_LLT 1 1 Scenario.ukf64
                  (state (base s)) (covar (base s)) s) in
  vec_eq 1 (col 3 (_obs_sigmas (object res)))
    (_h Scenario.ukf64 (col 3 (_state_sigmas g)) (col 3 (_obs_sigmas s))
        (col 3 (_obs_noise_sigmas 1 g))) /\
  _aug_sigmas (object res) = _aug_sigmas g.
Proof.
  cbv zeta.
  apply (@X6_observe_propagates_each_column binary64 binary64_LLT 1 1
           Scenario.ukf64).
  - apply variant_h_reads_extent.
  - unfold r, L. lia.
Defined.

(** X8 in exact arithmetic: state 5, weights -5 and 1, additive process
    model; the noise mean is zero and the weights sum to one, so the state
    handed back is 5. *)
Lemma X8_process_additive_model_witness :
  let res := _process exact_Z_LLT 1 1 Coverage.additive_ukfZ
               (Scenario.const_vector exact_Z 5%Z)
               (Scenario.const_vector exact_Z 0%Z) 1%Z Scenario.filterZ in
  vec_eq 1 (output res)
    (fun i => s_mul exact_Z
       (s_add exact_Z (wm0 Coverage.additive_ukfZ)
          (s_mul exact_Z (scalar_of_nat exact_Z (2 * L 1 1))
                 (wmi Coverage.additive_ukfZ)))
       (s_add exact_Z (Scenario.const_vector exact_Z 5%Z i)
          (proc_noise (base Scenario.filterZ) i))) /\
  output res 0 = 5%Z.
Proof.
  cbv zeta.
  assert (H : vec_eq 1
    (output (_process exact_Z_LLT 1 1 Coverage.additive_ukfZ
               (Scenario.const_vector exact_Z 5%Z)
               (Scenario.const_vector exact_Z 0%Z) 1%Z Scenario.filterZ))
    (fun i => s_mul exact_Z
       (s_add exact_Z (wm0 Coverage.additive_ukfZ)
          (s_mul exact_Z (scalar_of_nat exact_Z (2 * L 1 1))
                 (wmi Coverage.additive_ukfZ)))
       (s_add exact_Z (Scenario.const_vector exact_Z 5%Z i)
          (proc_noise (base Scenario.filterZ) i)))).
  { apply (@X8_process_additive_model exact_Z Zth exact_Z_LLT 1 1
             Coverage.additive_ukfZ).
    intros x u w d i. reflexivity. }
  split; [exact H|]. rewrite (H 0); [reflexivity | lia].
Defined.

(** X9 in exact arithmetic: the observation handed back is the stored state. *)
Lemma X9_observe_additive_model_witness :
  let res := _observe exact_Z_LLT 1 1 Coverage.additive_ukfZ
               (Scenario.const_vector exact_Z 0%Z) Scenario.filterZ in
  vec_eq 1 (output res)
    (fun i => s_mul exact_Z
       (s_add exact_Z (wm0 Coverage.additive_ukfZ)
          (s_mul exact_Z (scalar_of_nat exact_Z (2 * L 1 1))
                 (wmi Coverage.additive_ukfZ)))
       (s_add exact_Z (state (base Scenario.filterZ) i)
          (obs_noise (base Scenario.filterZ) i))) /\
  output res 0 = 5%Z.
Proof.
  cbv zeta.
  assert (H : vec_eq 1
    (output (_observe exact_Z_LLT 1 1 Coverage.additive_ukfZ
               (Scenario.const_vector exact_Z 0%Z) Scenario.filterZ))
    (fun i => s_mul exact_Z
       (s_add exact_Z (wm0 Coverage.additive_ukfZ)
          (s_mul exact_Z (scalar_of_nat exact_Z (2 * L 1 1))
                 (wmi Coverage.additive_ukfZ)))
       (s_add exact_Z (state (base Scenario.filterZ) i)
          (obs_noise (base Scenario.filterZ) i)))).
  { apply (@X9_observe_additive_model exact_Z Zth exact_Z_LLT 1 1
             Coverage.additive_ukfZ).
    - lia.
    - intros x o w i. reflexivity. }
  split; [exact H|]. rewrite (H 0); [reflexivity | lia].
Defined.

(** X10 in exact arithmetic, for the state row: with gamma = 4 and the
    factor 2 of the covariance 4, the second moment is 2 * 4 * 4 = 32. *)
Lemma X10_sigma_second_moment_witness :
  let g := snd (_generate_sigmas exact_Z_LLT 1 1 Scenario.ukfZ
                  (Scenario.const_vector exact_Z 5%Z)
                  (Scenario.const_matrix exact_Z 4%Z) Coverage.filterZ_zeroed) in
  sum_range exact_Z
    (fun j => s_mul exact_Z
       (s_sub exact_Z (_aug_sigmas g 0 j) (_aug_vector g 0))
       (s_sub exact_Z (_aug_sigmas g 0 j) (_aug_vector g 0))) 1 (2 * L 1 1) =
  s_mul exact_Z (s_add exact_Z (s_one exact_Z) (s_one exact_Z))
    (s_mul exact_Z
       (s_mul exact_Z (s_sqrt exact_Z (gamma Scenario.ukfZ))
                      (s_sqrt exact_Z (gamma Scenario.ukfZ)))
       (sum_range exact_Z
          (fun k => s_mul exact_Z (_aug_matrix g 0 k) (_aug_matrix g 0 k))
          0 (L 1 1))).
Proof.
  cbv zeta.
  apply (@X10_sigma_second_moment exact_Z Zth exact_Z_LLT 1 1 Scenario.ukfZ);
    unfold L; lia.
Defined.

(** X11 in exact arithmetic, for column 2 of a variant with gamma = 0. *)
Lemma X11_zero_spread_collapses_witness :
  let g := snd (_generate_sigmas exact_Z_LLT 1 1 Coverage.collapsed_ukfZ
                  (Scenario.const_vector exact_Z 5%Z)
                  (Scenario.const_matrix exact_Z 4%Z) Scenario.filterZ) in
  vec_eq (L 1 1) (col 2 (_aug_sigmas g)) (_aug_vector g).
Proof.
  cbv zeta.
  apply (@X11_zero_spread_collapses exact_Z Zth exact_Z_LLT 1 1
           Coverage.collapsed_ukfZ).
  - reflexivity.
  - unfold r, L. lia.
Defined.

(** The filter of exact arithmetic built over zeroed storage is zero outside
    its three blocks. *)
Lemma filterZ_zeroed_off_diagonal (a b : nat) :
  off_diagonal 1 1 a b -> _aug_matrix Coverage.filterZ_zeroed a b = 0%Z.
Proof.
  intros (Ha & Hb & H). unfold L in Ha, Hb. unfold Coverage.filterZ_zeroed.
  rewrite ctor_outside_blocks by lia. reflexivity.
Qed.

(** X12 in exact arithmetic over zeroed storage: column 2, the process-noise
    column, and its mirror column 5 leave the state row at the state. *)
Lemma X12_block_diagonal_sigmas_witness :
  let g := snd (_generate_sigmas exact_Z_LLT 1 1 Scenario.ukfZ
                  (Scenario.const_vector exact_Z 5%Z)
                  (Scenario.const_matrix exact_Z 4%Z) Coverage.filterZ_zeroed) in
  _aug_sigmas g 0 2 = _aug_vector g 0 /\
  _aug_sigmas g 0 (2 + L 1 1) = _aug_vector g 0.
Proof.
  cbv zeta.
  apply (@X12_block_diagonal_sigmas exact_Z Zth exact_Z_LLT 1 1 Scenario.ukfZ
           (Scenario.const_vector exact_Z 5%Z)
           (Scenario.const_matrix exact_Z 4%Z) Coverage.filterZ_zeroed 0 2).
  - exact filterZ_zeroed_off_diagonal.
  - unfold L. lia.
  - unfold off_diagonal, L. cbn [Nat.sub]. lia.
Defined.

(** X14 in exact arithmetic: over zeroed storage, coefficient (0,1) is zero
    after the constructor and a regeneration. *)
Lemma X14_zeroed_storage_stays_block_diagonal_witness :
  _aug_matrix
    (snd (_generate_sigmas exact_Z_LLT 1 1 Scenario.ukfZ
            (Scenario.const_vector exact_Z 5%Z)
            (Scenario.const_matrix exact_Z 4%Z) Coverage.filterZ_zeroed)) 0 1 =
  s_zero exact_Z.
Proof.
  apply (@X14_zeroed_storage_stays_block_diagonal exact_Z exact_Z_LLT 1 1
           Scenario.ukfZ (Scenario.storage exact_Z 0%Z)).
  - intros a b _. reflexivity.
  - apply reach_generate_sigmas. apply reach_ctor.
  - unfold off_diagonal, L. lia.
Defined.

(** ** What the covariance hooks find *)
Section HookCoverage.

Variable K : scalar_ops.
Variable LLT_compute : nat -> matrix K -> LLT K.
Variables nx nz : nat.
Variable D : Derived K.


End HookCoverage.
